(** * RootScreen: the call-lifecycle controller of the daily.co Next.js demo

    A shallow embedding of the [RootScreen] React component and of the
    [startDemo] handler of [HomeScreen], followed by the properties of the
    controller's state machine.

    How the component is read:
    - the four [useState] cells are fields of a [World] record, next to the
      part of the browser and of the vendor SDK the component talks to
      (page address, live subscriptions, pending promises, and a log of
      every outward call in program order);
    - a handler is a computation in a small state-and-exception monad; a
      JavaScript [TypeError] on a null receiver is [Throw];
    - one event-loop task (a click, a settled promise, a vendor event) is
      one [step]: the handler runs to completion, React commits the batched
      updates, and the effects whose dependencies changed run (clean-ups
      first, then bodies in declaration order);
    - what the vendor accessor [meetingState()] answers is environment
      input: the [vendor] field, set by the vendor events. *)

From Stdlib Require Import String List Bool Arith Lia.
Import ListNotations.
Open Scope string_scope.
Open Scope list_scope.

(** ** JavaScript values *)

(** A room URL at run time: the declared type is [string | null], and
    [undefined] flows in from a promise that fulfils with no value. *)
Inductive jsval : Type :=
| JNull
| JUndefined
| JStr (s : string).

(** JavaScript truthiness: the empty string is falsy as well. *)
Definition truthy (v : jsval) : bool :=
  match v with
  | JStr s => negb (s =? "")
  | _ => false
  end.

(** [Object.is], the comparison React applies to effect dependencies. *)
Definition jsval_eqb (a b : jsval) : bool :=
  match a, b with
  | JNull, JNull => true
  | JUndefined, JUndefined => true
  | JStr s, JStr t => s =? t
  | _, _ => false
  end.

(** A vendor call object is an opaque handle; [DailyCall | null] is
    [option CallId]. *)
Definition CallId := nat.

Definition truthy_ref (r : option CallId) : bool :=
  match r with Some _ => true | None => false end.

Definition ref_eqb (a b : option CallId) : bool :=
  match a, b with
  | Some c, Some d => Nat.eqb c d
  | None, None => true
  | _, _ => false
  end.

(** What [api.createRoom()] resolves with: an object carrying a [url]
    field (possibly absent, hence [undefined]), or a nullish value. *)
Inductive JsRoom : Type :=
| RoomObj (url : jsval)
| RoomNullish.

(** The outcome of a promise. *)
Inductive Settled (A : Type) : Type :=
| Fulfilled (a : A)
| Rejected.
Arguments Fulfilled {A} a.
Arguments Rejected {A}.

(** ** Application-state constants *)

(** Modelled from the spec: [modules/constants] is not part of the sources;
    the seven application states are the values the specification
    enumerates. *)
Definition STATE_IDLE : string := "idle".
Definition STATE_CREATING : string := "creating".
Definition STATE_HAIRCHECK : string := "hair-check".
Definition STATE_JOINING : string := "joining".
Definition STATE_JOINED : string := "joined".
Definition STATE_LEAVING : string := "leaving".
Definition STATE_ERROR : string := "error".

Definition app_states : list string :=
  [STATE_IDLE; STATE_CREATING; STATE_HAIRCHECK; STATE_JOINING;
   STATE_JOINED; STATE_LEAVING; STATE_ERROR].

(** ** The world around the component *)

Inductive Phase : Type := Fresh | Mounted | Unmounted.

(** Methods of the vendor call object the controller invokes. *)
Inductive Method : Type :=
| PreAuth (url : jsval)
| StartCamera
| Join (url : jsval)
| Leave
| Destroy
| On (ev : string)
| Off (ev : string).

(** Outward calls, logged in program order. *)
Inductive Effect : Type :=
| ApiCreateRoom
| CreateCallObject (c : CallId)
| Sdk (c : CallId) (m : Method)
| ReplaceState (pageUrl : string).

(** Promises whose continuation has not run yet. *)
Inductive Task : Type :=
| TCreateRoom
| TPreAuth (c : CallId)
| TDestroy (c : CallId).

Definition task_eqb (a b : Task) : bool :=
  match a, b with
  | TCreateRoom, TCreateRoom => true
  | TPreAuth c, TPreAuth d => Nat.eqb c d
  | TDestroy c, TDestroy d => Nat.eqb c d
  | _, _ => false
  end.

Record World : Type := mkWorld {
  phase : Phase;
  (* the four useState cells *)
  appState : string;
  roomUrl : jsval;
  callObject : option CallId;
  apiError : bool;
  (* browser *)
  href : string;
  (* vendor SDK *)
  vendor : CallId -> string;
  nextCall : CallId;
  subs : list (CallId * string);
  (* event loop *)
  pending : list Task;
  log : list Effect
}.

Definition set_phase (p : Phase) (w : World) : World :=
  mkWorld p (appState w) (roomUrl w) (callObject w) (apiError w) (href w)
          (vendor w) (nextCall w) (subs w) (pending w) (log w).
Definition set_appState (s : string) (w : World) : World :=
  mkWorld (phase w) s (roomUrl w) (callObject w) (apiError w) (href w)
          (vendor w) (nextCall w) (subs w) (pending w) (log w).
Definition set_roomUrl (u : jsval) (w : World) : World :=
  mkWorld (phase w) (appState w) u (callObject w) (apiError w) (href w)
          (vendor w) (nextCall w) (subs w) (pending w) (log w).
Definition set_callObject (c : option CallId) (w : World) : World :=
  mkWorld (phase w) (appState w) (roomUrl w) c (apiError w) (href w)
          (vendor w) (nextCall w) (subs w) (pending w) (log w).
Definition set_apiError (b : bool) (w : World) : World :=
  mkWorld (phase w) (appState w) (roomUrl w) (callObject w) b (href w)
          (vendor w) (nextCall w) (subs w) (pending w) (log w).
Definition set_href (h : string) (w : World) : World :=
  mkWorld (phase w) (appState w) (roomUrl w) (callObject w) (apiError w) h
          (vendor w) (nextCall w) (subs w) (pending w) (log w).
Definition set_vendor (v : CallId -> string) (w : World) : World :=
  mkWorld (phase w) (appState w) (roomUrl w) (callObject w) (apiError w)
          (href w) v (nextCall w) (subs w) (pending w) (log w).
Definition set_nextCall (n : CallId) (w : World) : World :=
  mkWorld (phase w) (appState w) (roomUrl w) (callObject w) (apiError w)
          (href w) (vendor w) n (subs w) (pending w) (log w).
Definition set_subs (l : list (CallId * string)) (w : World) : World :=
  mkWorld (phase w) (appState w) (roomUrl w) (callObject w) (apiError w)
          (href w) (vendor w) (nextCall w) l (pending w) (log w).
Definition set_pending (l : list Task) (w : World) : World :=
  mkWorld (phase w) (appState w) (roomUrl w) (callObject w) (apiError w)
          (href w) (vendor w) (nextCall w) (subs w) l (log w).
Definition set_log (l : list Effect) (w : World) : World :=
  mkWorld (phase w) (appState w) (roomUrl w) (callObject w) (apiError w)
          (href w) (vendor w) (nextCall w) (subs w) (pending w) l.

(** ** The handler monad: state plus exceptions *)

Inductive Res (A : Type) : Type :=
| Ok (a : A) (w : World)
| Throw (w : World).
Arguments Ok {A} a w.
Arguments Throw {A} w.

Definition M (A : Type) : Type := World -> Res A.

Definition world_of {A} (r : Res A) : World :=
  match r with Ok _ w => w | Throw w => w end.

Definition ret {A} (a : A) : M A := fun w => Ok a w.
Definition bind {A B} (m : M A) (k : A -> M B) : M B :=
  fun w => match m w with
           | Ok a w' => k a w'
           | Throw w' => Throw w'
           end.
Definition throw {A} : M A := fun w => Throw w.
Definition gets {A} (f : World -> A) : M A := fun w => Ok (f w) w.
Definition modify (f : World -> World) : M unit := fun w => Ok tt (f w).

Notation "x <- c1 ;; c2" := (bind c1 (fun x => c2))
  (at level 61, c1 at next level, right associativity).
Notation "c1 ;; c2" := (bind c1 (fun _ => c2))
  (at level 61, right associativity).

Definition when (b : bool) (m : M unit) : M unit :=
  if b then m else ret tt.

Fixpoint forEach {A} (l : list A) (f : A -> M unit) : M unit :=
  match l with
  | [] => ret tt
  | x :: tl => f x ;; forEach tl f
  end.

(** Promise combinators: a callback that throws rejects the derived
    promise; a [catch] callback that returns fulfils it. *)
Definition then_ {A B} (p : Settled A) (f : A -> M B) : M (Settled B) :=
  match p with
  | Fulfilled a =>
      fun w => match f a w with
               | Ok b w' => Ok (Fulfilled b) w'
               | Throw w' => Ok Rejected w'
               end
  | Rejected => ret Rejected
  end.

Definition catch_ {A} (p : Settled A) (f : M A) : M (Settled A) :=
  match p with
  | Fulfilled a => ret (Fulfilled a)
  | Rejected =>
      fun w => match f w with
               | Ok a w' => Ok (Fulfilled a) w'
               | Throw w' => Ok Rejected w'
               end
  end.

(** ** Primitive operations *)

Definition setAppState (s : string) : M unit := modify (set_appState s).
Definition setRoomUrl (u : jsval) : M unit := modify (set_roomUrl u).
Definition setCallObject (c : option CallId) : M unit :=
  modify (set_callObject c).
Definition setApiError (b : bool) : M unit := modify (set_apiError b).

Definition emit (e : Effect) : M unit :=
  modify (fun w => set_log (log w ++ [e]) w).
Definition defer (t : Task) : M unit :=
  modify (fun w => set_pending (pending w ++ [t]) w).

Fixpoint remove_task (t : Task) (l : list Task) : list Task :=
  match l with
  | [] => []
  | x :: tl => if task_eqb t x then tl else x :: remove_task t tl
  end.

Definition sub_eqb (a b : CallId * string) : bool :=
  Nat.eqb (fst a) (fst b) && (snd a =? snd b).

Fixpoint remove_sub (s : CallId * string) (l : list (CallId * string))
  : list (CallId * string) :=
  match l with
  | [] => []
  | x :: tl => if sub_eqb s x then tl else x :: remove_sub s tl
  end.

(** Evaluating [r.method(...)]: a null receiver is a [TypeError]. *)
Definition deref (r : option CallId) : M CallId :=
  match r with
  | Some c => ret c
  | None => throw
  end.

(** [DailyIframe.createCallObject()]: a handle never handed out before.
    The vendor SDK is outside the sources; the call is taken to succeed. *)
Definition createCallObject : M CallId :=
  c <- gets nextCall ;;
  modify (set_nextCall (S c)) ;;
  emit (CreateCallObject c) ;;
  ret c.

(** [r.m(...)] for the methods whose result the controller ignores or
    chains on; [on]/[off] also update the live subscriptions. *)
Definition invoke (r : option CallId) (m : Method) : M CallId :=
  c <- deref r ;;
  emit (Sdk c m) ;;
  match m with
  | On ev => modify (fun w => set_subs (subs w ++ [(c, ev)]) w)
  | Off ev => modify (fun w => set_subs (remove_sub (c, ev) (subs w)) w)
  | _ => ret tt
  end ;;
  ret c.

(** [r.meetingState()]. *)
Definition meetingState (r : option CallId) : M string :=
  c <- deref r ;;
  gets (fun w => vendor w c).

(** ** URL helpers *)

Module Utils.

(** Modelled from the spec: [modules/utils] is not part of the sources.
    One instance of the two helpers, for the concrete executions below:
    a page address encodes a room by a [?roomUrl=] query. *)
Definition roomUrlFromPageUrl (pageUrl : string) : jsval :=
  match index 0 "?roomUrl=" pageUrl with
  | Some i =>
      let from := i + 9 in
      let room := substring from (String.length pageUrl - from) pageUrl in
      if room =? "" then JNull else JStr room
  | None => JNull
  end.

Definition pageUrlFromRoomUrl (pageUrl : string) (roomUrl : jsval)
  : string :=
  let base := match index 0 "?" pageUrl with
              | Some i => substring 0 i pageUrl
              | None => pageUrl
              end in
  if truthy roomUrl then
    match roomUrl with
    | JStr room => (base ++ "?roomUrl=" ++ room)%string
    | _ => base
    end
  else base.

End Utils.

(** ** Screens and events *)

(** What [renderApp] returns. *)
Inductive View : Type := ApiErrorView | HairCheckView | CallView | HomeView.

Definition view_eqb (a b : View) : bool :=
  match a, b with
  | ApiErrorView, ApiErrorView | HairCheckView, HairCheckView
  | CallView, CallView | HomeView, HomeView => true
  | _, _ => false
  end.

(** The buttons of the screens, each wired to one callback of the
    controller. *)
Inductive Button : Type :=
| StartButton     (* HomeScreen: "Click to start a call" *)
| JoinButton      (* HairCheck: joinCall *)
| CancelButton    (* HairCheck: cancelCall = startLeavingCall *)
| LeaveButton.    (* Tray: leaveCall = startLeavingCall *)

(** The tasks of the event loop that reach the controller.
    [Vendor c ev ms]: call object [c] moves to meeting state [ms] and
    emits [ev].  A settled promise carries its outcome. *)
Inductive Event : Type :=
| Mount
| Unmount
| Click (b : Button)
| RoomSettled (r : Settled JsRoom)
| PreAuthSettled (c : CallId) (ok : bool)
| DestroySettled (c : CallId) (ok : bool)
| Vendor (c : CallId) (ev : string) (ms : string).

(** The world of the first render: the [useState] defaults. *)
Definition init (h : string) (v : CallId -> string) : World :=
  mkWorld Fresh STATE_IDLE JNull None false h v 0 [] [] [].

(** ** Concrete executions *)

Module Scenario.

Definition home : string := "https://demo.example/".
Definition room : string := "https://x.daily.co/abc".
Definition deep_link : string :=
  "https://demo.example/?roomUrl=https://x.daily.co/abc".

(** A vendor whose fresh call objects report [new]. *)
Definition fresh : CallId -> string := fun _ => "new".

Definition room_created : Event :=
  RoomSettled (Fulfilled (RoomObj (JStr room))).

(** Start the demo from the home page; the room is created. *)
Definition to_hair_check : list Event :=
  [Mount; Click StartButton; room_created].

(** ... then join, and the vendor reports the join. *)
Definition to_joined : list Event :=
  to_hair_check ++
  [Click JoinButton; Vendor 0 "joined-meeting" "joined-meeting"].

(** ... then the vendor reports an error. *)
Definition to_error : list Event :=
  to_joined ++ [Vendor 0 "error" "error"].

(** Start the demo; the room request fails. *)
Definition to_api_error : list Event :=
  [Mount; Click StartButton; RoomSettled Rejected].

(** Cancel the hair check; the vendor reports that the call was left. *)
Definition to_left : list Event :=
  to_hair_check ++
  [Click CancelButton; Vendor 0 "left-meeting" "left-meeting"].

(** ... and while [destroy()] of the first call object is still running,
    start again from the home screen, which is the rendered view in the
    leaving state. *)
Definition restart_while_leaving : list Event :=
  to_left ++ [Click StartButton; room_created].

End Scenario.

(** ** The controller *)

Section RootScreen.

(** [modules/utils] is not part of the sources.  Both helpers read
    [window.location]; they are taken as parameters, functions of the
    current page address. *)
Variable roomUrlFromPageUrl : string -> jsval.
Variable pageUrlFromRoomUrl : string -> jsval -> string.

(** [createCall]: the synchronous part.  The promise it returns is the
    pending [TCreateRoom]; [createCall_settled] is what the chain
    [.then(room => room.url).catch(...)] does once the request settles,
    and the value [createCall]'s promise settles with. *)
Definition createCall : M unit :=
  setAppState STATE_CREATING ;;
  emit ApiCreateRoom ;;
  defer TCreateRoom.

Definition room_url (room : JsRoom) : M jsval :=
  match room with
  | RoomObj url => ret url
  | RoomNullish => throw
  end.

Definition createCall_catch : M jsval :=
  setRoomUrl JNull ;;
  setAppState STATE_IDLE ;;
  setApiError true ;;
  ret JUndefined.

Definition createCall_settled (r : Settled JsRoom) : M (Settled jsval) :=
  p <- then_ r room_url ;;
  catch_ p createCall_catch.

(** [startHairCheck], up to its first [await]; [startHairCheck_resume]
    is the rest of the async function. *)
Definition startHairCheck (url : jsval) : M unit :=
  newCallObject <- createCallObject ;;
  setRoomUrl url ;;
  setCallObject (Some newCallObject) ;;
  setAppState STATE_HAIRCHECK ;;
  invoke (Some newCallObject) (PreAuth url) ;;
  defer (TPreAuth newCallObject).

Definition startHairCheck_resume (newCallObject : CallId) : M unit :=
  invoke (Some newCallObject) StartCamera ;;
  ret tt.

(** [joinCall] and [startLeavingCall] are [useCallback]s whose dependency
    lists name every state cell they read, so the closure values are the
    committed ones; they are arguments here. *)
Definition joinCall (callObject : option CallId) (roomUrl : jsval)
  : M unit :=
  if truthy_ref callObject && truthy roomUrl then
    invoke callObject (Join roomUrl) ;; ret tt
  else ret tt.

(** The body shared by both [destroy().then(...)] continuations. *)
Definition destroy_then : M unit :=
  setRoomUrl JNull ;;
  setCallObject None ;;
  setAppState STATE_IDLE.

(** [callObject.destroy().then(() => {...})]: the call is made now, the
    continuation waits for the promise. *)
Definition destroy_and_then (callObject : option CallId) : M unit :=
  c <- invoke callObject Destroy ;;
  defer (TDestroy c).

Definition startLeavingCall (callObject : option CallId)
           (appState : string) : M unit :=
  if negb (truthy_ref callObject) then ret tt
  else if appState =? STATE_ERROR then
    destroy_and_then callObject
  else
    setAppState STATE_LEAVING ;;
    invoke callObject Leave ;;
    ret tt.

(** [handleNewMeetingState] closes over the [callObject] of the render
    whose effect registered it. *)
Definition handleNewMeetingState (callObject : option CallId) : M unit :=
  if truthy_ref callObject then
    ms <- meetingState callObject ;;
    if ms =? "joined-meeting" then setAppState STATE_JOINED
    else if ms =? "left-meeting" then destroy_and_then callObject
    else if ms =? "error" then setAppState STATE_ERROR
    else ret tt
  else ret tt.

Definition events : list string :=
  ["joined-meeting"; "left-meeting"; "error"; "camera-error"].

(** *** Effects *)

(** Mount effect (dependency [startHairCheck], which never changes). *)
Definition mountEffect : M unit :=
  h <- gets href ;;
  let url := roomUrlFromPageUrl h in
  if truthy url then startHairCheck url else ret tt.

(** Effect on [roomUrl]. [replaceState] makes the given URL the page
    address. *)
Definition roomUrlEffect (roomUrl : jsval) : M unit :=
  h <- gets href ;;
  let pageUrl := pageUrlFromRoomUrl h roomUrl in
  if pageUrl =? h then ret tt
  else
    emit (ReplaceState pageUrl) ;;
    modify (set_href pageUrl).

(** Effect on [callObject]: body and clean-up. *)
Definition callObjectEffect (callObject : option CallId) : M unit :=
  if truthy_ref callObject then
    handleNewMeetingState callObject ;;
    forEach events (fun event =>
      invoke callObject (On event) ;; ret tt)
  else ret tt.

Definition callObjectCleanup (callObject : option CallId) : M unit :=
  if truthy_ref callObject then
    forEach events (fun event =>
      invoke callObject (Off event) ;; ret tt)
  else ret tt.

(** React's commit after a batch of updates: [old] is the world the
    previous render saw.  Clean-ups of the effects whose dependency
    changed run first, then their bodies in declaration order. *)
Definition commit (old : World) : M unit :=
  newUrl <- gets roomUrl ;;
  newCall <- gets callObject ;;
  let callChanged := negb (ref_eqb (callObject old) newCall) in
  when callChanged (callObjectCleanup (callObject old)) ;;
  when (negb (jsval_eqb (roomUrl old) newUrl)) (roomUrlEffect newUrl) ;;
  when callChanged (callObjectEffect newCall).

(** The first commit: every effect runs with the values of the first
    render; the updates made by the mount effect are then committed. *)
Definition mount : M unit :=
  first <- gets (fun w => w) ;;
  modify (set_phase Mounted) ;;
  mountEffect ;;
  roomUrlEffect (roomUrl first) ;;
  callObjectEffect (callObject first) ;;
  commit first.

Definition unmount : M unit :=
  cur <- gets callObject ;;
  callObjectCleanup cur ;;
  modify (set_phase Unmounted).

(** *** Rendering *)

Definition showCall (w : World) : bool :=
  negb (apiError w) &&
  existsb (String.eqb (appState w))
          [STATE_JOINING; STATE_JOINED; STATE_ERROR].

Definition showHairCheck (w : World) : bool :=
  negb (apiError w) && (appState w =? STATE_HAIRCHECK).

Definition renderApp (w : World) : View :=
  if apiError w then ApiErrorView
  else if showHairCheck w && truthy_ref (callObject w) then HairCheckView
  else if showCall w && truthy_ref (callObject w) then CallView
  else HomeView.

(** [HomeScreen.startDemo]: [createCall().then(url => startHairCheck(url))].
    [startDemo] is the click; [startDemo_settled] runs when the room
    request settles. *)
Definition startDemo : M unit := createCall.

Definition startDemo_settled (r : Settled JsRoom) : M (Settled unit) :=
  p <- createCall_settled r ;;
  then_ p startHairCheck.

(** *** The event loop *)

(** A button can be clicked only while the screen that carries it is
    the rendered one. *)
Definition screen_of (b : Button) : View :=
  match b with
  | StartButton => HomeView
  | JoinButton | CancelButton => HairCheckView
  | LeaveButton => CallView
  end.

Definition onClick (b : Button) (w : World) : M unit :=
  match b with
  | StartButton => startDemo
  | JoinButton => joinCall (callObject w) (roomUrl w)
  | CancelButton | LeaveButton => startLeavingCall (callObject w) (appState w)
  end.

(** The vendor emitter calls every listener registered for the event;
    the listener registered for a call object closed over that object. *)
Fixpoint dispatch (ls : list (CallId * string)) (c : CallId) (ev : string)
  : M unit :=
  match ls with
  | [] => ret tt
  | l :: tl =>
      when (sub_eqb l (c, ev)) (handleNewMeetingState (Some (fst l))) ;;
      dispatch tl c ev
  end.

Definition take_task (t : Task) : M bool :=
  ps <- gets pending ;;
  if existsb (task_eqb t) ps then
    modify (set_pending (remove_task t ps)) ;; ret true
  else ret false.

(** What runs in the task of event [e], before the commit. *)
Definition handler (e : Event) (w : World) : M unit :=
  match e with
  | Mount | Unmount => ret tt
  | Click b =>
      when (view_eqb (renderApp w) (screen_of b)) (onClick b w)
  | RoomSettled r =>
      live <- take_task TCreateRoom ;;
      when live (startDemo_settled r ;; ret tt)
  | PreAuthSettled c ok =>
      live <- take_task (TPreAuth c) ;;
      when (live && ok) (startHairCheck_resume c)
  | DestroySettled c ok =>
      live <- take_task (TDestroy c) ;;
      when (live && ok) destroy_then
  | Vendor c ev ms =>
      modify (fun w => set_vendor
                (fun d => if Nat.eqb d c then ms else vendor w d) w) ;;
      ls <- gets subs ;;
      dispatch ls c ev
  end.

(** An exception ends the running callback; the updates it queued
    before stand and are committed all the same. *)
Definition settle {A} (m : M A) : M unit :=
  fun w => Ok tt (world_of (m w)).

Definition program (e : Event) (w : World) : M unit :=
  match phase w, e with
  | Fresh, Mount => mount
  | Mounted, Unmount => unmount
  | Mounted, Mount => ret tt
  | Mounted, _ => settle (handler e w) ;; commit w
  | _, _ => ret tt
  end.

Definition step (w : World) (e : Event) : World :=
  world_of (program e w w).

Definition run (w : World) (es : list Event) : World :=
  fold_left step es w.

Inductive reachable : World -> Prop :=
| reach_init : forall h v, reachable (init h v)
| reach_step : forall w e, reachable w -> reachable (step w e).

(** ** Vocabulary of the properties *)

(** The subscriptions the controller holds for a call object reference:
    one handler on each of the four events, none without a call object. *)
Definition subs_for (r : option CallId) : list (CallId * string) :=
  match r with
  | Some c => map (pair c) events
  | None => []
  end.

(** The history writes among the logged calls. *)
Definition is_replace (e : Effect) : bool :=
  match e with ReplaceState _ => true | _ => false end.
Definition history (w : World) : list Effect := filter is_replace (log w).

Definition app_state_ok (w : World) : Prop := In (appState w) app_states.


(** Handles are handed out in increasing order. *)
Definition handles_below_next (w : World) : Prop :=
  forall c, In (CreateCallObject c) (log w) -> c < nextCall w.


(** A computation keeps a predicate, whether it returns or throws. *)
Definition pres {A} (P : World -> Prop) (m : M A) : Prop :=
  forall w, P w -> P (world_of (m w)).


(** A room URL is held only together with a call object. *)
Definition url_needs_call (x : World) : Prop :=
  callObject x = None -> roomUrl x = JNull.

(** Every logged [join()] carries a truthy URL. *)
Definition joins_have_url (x : World) : Prop :=
  forall c u, In (Sdk c (Join u)) (log x) -> truthy u = true.


(** The application state is what it was, or one that no vendor report
    stands behind. *)
Definition away_from_reported (s0 : string) (x : World) : Prop :=
  appState x = s0 \/
  In (appState x) [STATE_IDLE; STATE_CREATING; STATE_HAIRCHECK;
                   STATE_LEAVING].

(** The meeting state that stands behind an application state. *)
Definition reported (s ms : string) : Prop :=
  (s = STATE_JOINED /\ ms = "joined-meeting") \/
  (s = STATE_ERROR /\ ms = "error").


(** Without a call object the application state is idle or creating. *)
Definition state_has_call (x : World) : Prop :=
  callObject x = None ->
  appState x = STATE_IDLE \/ appState x = STATE_CREATING.

(** ** Preservation of a predicate by a computation *)

Lemma pres_ret {A} P (a : A) : pres P (ret a).
Proof. intros w H; exact H. Qed.

Lemma pres_throw {A} P : pres P (@throw A).
Proof. intros w H; exact H. Qed.

Lemma pres_gets {A} P (f : World -> A) : pres P (gets f).
Proof. intros w H; exact H. Qed.

Lemma pres_modify P f :
  (forall w, P w -> P (f w)) -> pres P (modify f).
Proof. intros Hf w H; apply Hf, H. Qed.

Lemma pres_bind {A B} P (m : M A) (k : A -> M B) :
  pres P m -> (forall a, pres P (k a)) -> pres P (bind m k).
Proof.
  intros Hm Hk w H. unfold bind.
  specialize (Hm w H). destruct (m w) as [a w'|w']; simpl in *.
  - apply Hk, Hm.
  - exact Hm.
Qed.

Lemma pres_after {A B} (P : World -> Prop) (m : M A) (k : A -> M B) w :
  P (world_of (m w)) -> (forall a, pres P (k a)) ->
  P (world_of (bind m k w)).
Proof.
  intros Hm Hk. unfold bind. destruct (m w) as [a w'|w']; simpl in *; auto.
  apply Hk, Hm.
Qed.

Lemma pres_when P b m : pres P m -> pres P (when b m).
Proof. destruct b; simpl; auto using pres_ret. Qed.

Lemma pres_forEach {A} P (l : list A) f :
  (forall a, pres P (f a)) -> pres P (forEach l f).
Proof.
  intros Hf. induction l as [|x tl IH]; simpl.
  - apply pres_ret.
  - apply pres_bind; auto.
Qed.

Lemma pres_then {A B} P (p : Settled A) (f : A -> M B) :
  (forall a, pres P (f a)) -> pres P (then_ p f).
Proof.
  intros Hf. destruct p as [a|]; simpl.
  - intros w H. specialize (Hf a w H).
    destruct (f a w); exact Hf.
  - apply pres_ret.
Qed.

Lemma pres_catch {A} P (p : Settled A) (f : M A) :
  pres P f -> pres P (catch_ p f).
Proof.
  intros Hf. destruct p as [a|]; simpl.
  - apply pres_ret.
  - intros w H. specialize (Hf w H). destruct (f w); exact Hf.
Qed.

Lemma pres_settle {A} P (m : M A) : pres P m -> pres P (settle m).
Proof. intros Hm w H. apply Hm, H. Qed.

Lemma pres_dispatch P ls c ev :
  (forall d, pres P (handleNewMeetingState (Some d))) ->
  pres P (dispatch ls c ev).
Proof.
  intros Hh. induction ls as [|l tl IH]; simpl.
  - apply pres_ret.
  - apply pres_bind; [apply pres_when, Hh | intros _; exact IH].
Qed.

Create HintDb controller.
Hint Unfold createCall room_url createCall_catch createCall_settled
     startHairCheck startHairCheck_resume joinCall destroy_then
     startLeavingCall handleNewMeetingState
     mountEffect roomUrlEffect callObjectEffect callObjectCleanup
     commit mount unmount startDemo onClick
     handler program invoke meetingState deref
     setAppState setRoomUrl setCallObject setApiError emit defer
  : controller.

(** One structural step of a preservation proof. *)
Ltac pres_step :=
  lazymatch goal with
  | |- pres _ (ret _) => apply pres_ret
  | |- pres _ throw => apply pres_throw
  | |- pres _ (gets _) => apply pres_gets
  | |- pres _ (when _ _) => apply pres_when
  | |- pres _ (settle _) => apply pres_settle
  | |- pres _ (forEach _ _) => apply pres_forEach; intros
  | |- pres _ (then_ _ _) => apply pres_then; intros
  | |- pres _ (catch_ _ _) => apply pres_catch
  | |- pres _ (dispatch _ _ _) => apply pres_dispatch; intros
  | |- pres _ (bind _ _) => apply pres_bind; [|intros]
  | |- pres _ (take_task _) => first [ solve [auto] | unfold take_task ]
  | |- pres _ (startDemo_settled _) =>
      first [ solve [auto] | unfold startDemo_settled ]
  | |- pres _ createCallObject =>
      first [ solve [auto] | unfold createCallObject ]
  | |- pres _ (destroy_and_then _) =>
      first [ solve [auto] | unfold destroy_and_then ]
  | |- pres _ (if ?b then _ else _) => destruct b
  | |- pres _ (match ?x with _ => _ end) => destruct x
  | |- pres _ (let _ := _ in _) => cbv zeta
  end.

(** Unfold the controller down to its primitive actions, leaving one
    goal per [modify]. *)
Ltac pres_split :=
  intros; autounfold with controller;
  repeat (cbv beta iota;
          first [ pres_step | progress autounfold with controller ]).

(** ** Symbolic execution of a computation on a world *)

Ltac head_scrut t :=
  lazymatch t with
  | match ?x with _ => _ end => head_scrut x
  | negb ?x => head_scrut x
  | andb ?x _ => head_scrut x
  | ?f ?a =>
      lazymatch type of a with
      | World => head_scrut f
      | _ => t
      end
  | _ => t
  end.

Ltac case_head :=
  match goal with
  | |- context [world_of ?r] =>
      let s := head_scrut r in
      destruct s eqn:?
  end.

Ltac mrun :=
  repeat (progress (autounfold with controller;
                    unfold bind, when, gets, modify, ret, throw, settle,
                      sub_eqb, take_task, createCallObject,
                      destroy_and_then, startDemo_settled;
                    cbn; rewrite ?Nat.eqb_refl, ?String.eqb_refl)).

Ltac eqb_subst :=
  repeat match goal with
         | H : Nat.eqb _ _ = true |- _ => apply Nat.eqb_eq in H; subst
         | H : String.eqb _ _ = true |- _ => apply String.eqb_eq in H; subst
         end.

Ltac use_cases :=
  repeat match goal with
         | H : ?x = true |- context [?x] => rewrite H
         | H : ?x = false |- context [?x] => rewrite H
         end.

(** ** Basic facts *)

Lemma jsval_eqb_refl u : jsval_eqb u u = true.
Proof. destruct u; simpl; auto using String.eqb_refl. Qed.

Lemma task_eqb_eq t u : task_eqb t u = true -> t = u.
Proof.
  destruct t, u; simpl; try discriminate; auto;
    intros H; apply Nat.eqb_eq in H; congruence.
Qed.


Lemma take_task_live t w :
  In t (pending w) -> existsb (task_eqb t) (pending w) = true.
Proof.
  intros H. apply existsb_exists. exists t. split; [exact H|].
  destruct t; simpl; auto using Nat.eqb_refl.
Qed.

Lemma In_subs_for c ev r : In (c, ev) (subs_for r) -> r = Some c.
Proof.
  destruct r as [d|]; simpl; [|tauto].
  intros H. repeat destruct H as [H|H]; try contradiction; congruence.
Qed.

Lemma history_snoc w e :
  filter is_replace (log w ++ [e]) =
  filter is_replace (log w) ++ (if is_replace e then [e] else []).
Proof. rewrite filter_app. simpl. destruct (is_replace e); reflexivity. Qed.

Lemma bind_gets {A B} (f : World -> A) (k : A -> M B) w :
  bind (gets f) k w = k (f w) w.
Proof. reflexivity. Qed.

(** ** Steps and executions *)

Lemma step_mounted w e :
  phase w = Mounted -> e <> Mount -> e <> Unmount ->
  step w e = world_of (commit w (world_of (handler e w w))).
Proof.
  intros Hp Hm Hu. unfold step, program. rewrite Hp.
  destruct e; try congruence; reflexivity.
Qed.

Lemma step_not_mounted w e : phase w <> Mounted -> e <> Mount -> step w e = w.
Proof.
  intros Hp He. unfold step, program.
  destruct (phase w); try congruence; destruct e; try congruence;
    reflexivity.
Qed.

Lemma reachable_run w es : reachable w -> reachable (run w es).
Proof.
  revert w. induction es as [|e es IH]; intros w H; simpl; auto.
  apply IH, reach_step, H.
Qed.

Lemma reachable_ind_pres (P : World -> Prop) :
  (forall h v, P (init h v)) ->
  (forall e w0, pres P (program e w0)) ->
  forall w, reachable w -> P w.
Proof.
  intros Hi Hp w Hr. induction Hr as [h v|w e Hr IH].
  - apply Hi.
  - unfold step. apply Hp, IH.
Qed.

(** ** The commit *)

Lemma commit_keeps_state old (u : jsval) (c : option CallId) b p n v :
  pres (fun x => roomUrl x = u /\ callObject x = c /\ apiError x = b /\
                 phase x = p /\ nextCall x = n /\ vendor x = v)
       (commit old).
Proof. pres_split; apply pres_modify; simpl; intros; tauto. Qed.

Lemma commit_noop old w :
  ref_eqb (callObject old) (callObject w) = true ->
  jsval_eqb (roomUrl old) (roomUrl w) = true ->
  world_of (commit old w) = w.
Proof.
  intros Hc Hu. unfold commit. rewrite !bind_gets, Hc, Hu. reflexivity.
Qed.

Lemma commit_subs old w :
  subs w = subs_for (callObject old) ->
  subs (world_of (commit old w)) = subs_for (callObject w).
Proof.
  intros H. destruct old, w; simpl in *; subst.
  destruct callObject0 as [c0|], callObject1 as [c1|]; mrun.
  all: repeat (case_head; mrun); eqb_subst; reflexivity.
Qed.

Lemma commit_appState_same old w :
  ref_eqb (callObject old) (callObject w) = true ->
  appState (world_of (commit old w)) = appState w.
Proof.
  intros H. destruct old, w; simpl in *.
  mrun. rewrite H. mrun.
  repeat (case_head; mrun); reflexivity.
Qed.

Lemma commit_appState_none old w :
  callObject w = None ->
  appState (world_of (commit old w)) = appState w.
Proof.
  intros H. destruct old, w; simpl in *; subst.
  destruct callObject0 as [c0|]; mrun.
  all: repeat (case_head; mrun); reflexivity.
Qed.

Lemma commit_keeps_logged old e :
  pres (fun x => In e (log x)) (commit old).
Proof.
  pres_split; apply pres_modify; simpl; intros wx Hx;
    rewrite ?in_app_iff; auto.
Qed.

Lemma commit_logs_off old w c ev :
  callObject old = Some c -> callObject w <> Some c -> In ev events ->
  In (Sdk c (Off ev)) (log (world_of (commit old w))).
Proof.
  intros Ho Hn Hev. unfold commit. rewrite !bind_gets, Ho.
  assert (Hne : ref_eqb (Some c) (callObject w) = false).
  { destruct (callObject w) as [d|]; simpl; auto.
    apply Nat.eqb_neq. congruence. }
  rewrite Hne. simpl negb.
  apply (pres_after (fun x => In (Sdk c (Off ev)) (log x))).
  - destruct w. repeat destruct Hev as [<-|Hev]; try contradiction.
    all: cbn; rewrite ?in_app_iff; simpl; tauto.
  - intros _. pres_split; apply pres_modify; simpl; intros wx Hx;
      rewrite ?in_app_iff; auto.
Qed.

Lemma commit_history old w :
  let w' := world_of (commit old w) in
  let pageUrl := pageUrlFromRoomUrl (href w) (roomUrl w) in
  if jsval_eqb (roomUrl old) (roomUrl w) || (pageUrl =? href w) then
    history w' = history w /\ href w' = href w
  else
    history w' = history w ++ [ReplaceState pageUrl] /\ href w' = pageUrl.
Proof.
  destruct old, w; unfold history; simpl.
  destruct callObject0 as [c0|], callObject1 as [c1|]; mrun.
  all: repeat (case_head; mrun); unfold history; simpl;
    rewrite ?filter_app; simpl; rewrite ?app_nil_r; auto.
Qed.

(** ** Invariants of the event loop *)

(** *** The application state stays among the seven constants *)

Lemma app_state_ok_program e w0 : pres app_state_ok (program e w0).
Proof.
  pres_split;
    apply pres_modify; unfold app_state_ok; simpl; intros; tauto.
Qed.

(** *** The error flag is never lowered *)

Lemma apiError_program e w0 :
  pres (fun x => apiError x = true) (program e w0).
Proof. pres_split; apply pres_modify; simpl; intros; tauto. Qed.

(** *** Pending destroy continuations *)





(** *** Fresh handles *)

Lemma handles_below_create : pres handles_below_next createCallObject.
Proof.
  intros w H c Hc. cbn in *. apply in_app_iff in Hc.
  destruct Hc as [Hc|[Hc|[]]].
  - apply H in Hc. lia.
  - injection Hc as <-. lia.
Qed.

Lemma handles_below_program e w0 : pres handles_below_next (program e w0).
Proof.
  pose proof handles_below_create.
  pres_split; apply pres_modify; unfold handles_below_next; simpl;
    intros wx Hx cx Hcx; rewrite ?in_app_iff in *; simpl in *;
    intuition (try discriminate; auto).
Qed.

Lemma reachable_handles_below w : reachable w -> handles_below_next w.
Proof.
  apply reachable_ind_pres.
  - intros h v c [].
  - apply handles_below_program.
Qed.

(** *** Subscriptions *)

Lemma handler_keeps_page e w0 L p h H :
  pres (fun x => subs x = L /\ phase x = p /\ href x = h /\ history x = H)
       (handler e w0).
Proof.
  pres_split; apply pres_modify; unfold history; simpl; intros wx Hx;
    rewrite ?history_snoc; simpl; rewrite ?app_nil_r; tauto.
Qed.

Lemma unmount_keeps_call co : pres (fun x => callObject x = co) unmount.
Proof. pres_split; apply pres_modify; simpl; auto. Qed.

Lemma subs_reachable w :
  reachable w ->
  match phase w with
  | Fresh => callObject w = None /\ subs w = []
  | Mounted => subs w = subs_for (callObject w)
  | Unmounted => subs w = []
  end.
Proof.
  intros Hr. induction Hr as [h v|w e Hr IH]; [simpl; auto|].
  destruct (phase w) eqn:Hp.
  - (* first commit *)
    destruct IH as (Hc & Hs).
    unfold step, program. rewrite Hp.
    destruct e; try (simpl; rewrite Hp; auto).
    destruct w; simpl in *; subst. mrun.
    repeat (case_head; mrun); reflexivity.
  - assert (He : e = Mount \/ e = Unmount \/ (e <> Mount /\ e <> Unmount))
      by (destruct e; auto; right; right; split; discriminate).
    destruct He as [-> | [-> | [Hm Hu]]].
    + unfold step, program. rewrite Hp. simpl. rewrite Hp. exact IH.
    + unfold step, program. rewrite Hp.
      destruct w; simpl in *; subst.
      destruct callObject0; mrun; reflexivity.
    + rewrite step_mounted by auto.
      set (W := world_of (handler e w w)).
      destruct (handler_keeps_page e w (subs w) (phase w) (href w)
                  (history w) w) as (F1 & F2 & _); [auto|].
      fold W in F1, F2.
      destruct (commit_keeps_state w (roomUrl W) (callObject W)
                  (apiError W) (phase W) (nextCall W) (vendor W) W)
        as (_ & K2 & _ & K4 & _); [repeat split; auto|].
      rewrite K4, F2, Hp, K2. apply commit_subs. congruence.
  - unfold step, program. rewrite Hp. simpl. rewrite Hp. exact IH.
Qed.

(** ** Mount and unmount *)

Lemma mount_history h v :
  let w' := step (init h v) Mount in
  let p0 := pageUrlFromRoomUrl h JNull in
  let h1 := if p0 =? h then h else p0 in
  let p1 := pageUrlFromRoomUrl h1 (roomUrl w') in
  history w' =
    (if p0 =? h then [] else [ReplaceState p0]) ++
    (if jsval_eqb JNull (roomUrl w') || (p1 =? h1) then []
     else [ReplaceState p1]) /\
  roomUrl w' = (if truthy (roomUrlFromPageUrl h)
                then roomUrlFromPageUrl h else JNull).
Proof.
  cbv zeta. unfold step, program, init, history; simpl. mrun.
  destruct (truthy (roomUrlFromPageUrl h)) eqn:Et; mrun.
  - destruct (roomUrlFromPageUrl h) eqn:Eu; try discriminate. mrun.
    repeat (case_head; mrun); rewrite ?filter_app; simpl; use_cases; auto.
  - repeat (case_head; mrun); rewrite ?filter_app; simpl; use_cases; auto.
Qed.

Lemma unmount_step w c :
  phase w = Mounted -> callObject w = Some c ->
  subs w = subs_for (Some c) ->
  let w' := step w Unmount in
  subs w' = [] /\ phase w' = Unmounted /\
  forall ev, In ev events -> In (Sdk c (Off ev)) (log w').
Proof.
  intros Hp Hc Hs. unfold step, program. rewrite Hp.
  destruct w; simpl in *; subst. mrun. repeat split.
  intros ev Hev. repeat destruct Hev as [<-|Hev]; try contradiction.
  all: rewrite ?in_app_iff; simpl; tauto.
Qed.

(** ** Settled promises *)

Lemma destroy_settled_step w c :
  phase w = Mounted -> In (TDestroy c) (pending w) ->
  let w' := step w (DestroySettled c true) in
  roomUrl w' = JNull /\ callObject w' = None /\ appState w' = STATE_IDLE.
Proof.
  intros Hp Hin. cbv zeta.
  rewrite step_mounted by (auto; discriminate).
  apply take_task_live in Hin.
  assert (Hh : forall W, W = world_of (handler (DestroySettled c true) w w) ->
               roomUrl W = JNull /\ callObject W = None /\
               appState W = STATE_IDLE).
  { intros W ->. unfold handler, take_task, bind, gets. rewrite Hin.
    destruct w; cbn. auto. }
  specialize (Hh _ eq_refl). destruct Hh as (Hu & Hc & Hs).
  rewrite commit_appState_none by exact Hc.
  pose proof (commit_keeps_state w JNull None
                (apiError (world_of (handler (DestroySettled c true) w w)))
                (phase (world_of (handler (DestroySettled c true) w w)))
                (nextCall (world_of (handler (DestroySettled c true) w w)))
                (vendor (world_of (handler (DestroySettled c true) w w)))
                (world_of (handler (DestroySettled c true) w w))) as K.
  destruct K as (K1 & K2 & _); [repeat split; auto|].
  repeat split; auto.
Qed.





(** ** Vendor events *)

Lemma handleNewMeetingState_total d w :
  exists w', handleNewMeetingState (Some d) w = Ok tt w'.
Proof.
  unfold handleNewMeetingState, meetingState, bind, gets, deref, ret.
  simpl.
  destruct (vendor w d =? "joined-meeting"); [eexists; reflexivity|].
  destruct (vendor w d =? "left-meeting"); [eexists; reflexivity|].
  destruct (vendor w d =? "error"); eexists; reflexivity.
Qed.

(** With the controller's four subscriptions in place, an event of call
    object [c] runs the handler once when [c] is the subscribed object and
    the event is one of the four, and not at all otherwise. *)
Lemma dispatch_subs_for d c ev w :
  world_of (dispatch (subs_for (Some d)) c ev w) =
  if Nat.eqb d c && existsb (fun e => e =? ev) events
  then world_of (handleNewMeetingState (Some d) w)
  else w.
Proof.
  pose proof (handleNewMeetingState_total d) as Hh.
  unfold subs_for, events. cbn [map existsb].
  unfold dispatch, sub_eqb, when. cbn [fst snd].
  set (hd := handleNewMeetingState (Some d)) in *.
  destruct (Nat.eqb d c); cbn [andb]; [|reflexivity].
  destruct ("joined-meeting" =? ev) eqn:E1;
    destruct ("left-meeting" =? ev) eqn:E2;
    destruct ("error" =? ev) eqn:E3;
    destruct ("camera-error" =? ev) eqn:E4;
    try (eqb_subst; discriminate); cbn [orb];
    unfold bind, ret; try reflexivity;
    destruct (Hh w) as [w' ->]; reflexivity.
Qed.

Lemma vendor_handler w c ev ms :
  subs w = subs_for (callObject w) ->
  world_of (handler (Vendor c ev ms) w w) =
  let w1 := set_vendor (fun d => if Nat.eqb d c then ms else vendor w d) w in
  match callObject w with
  | Some d =>
      if Nat.eqb d c && existsb (fun e => e =? ev) events
      then world_of (handleNewMeetingState (Some d) w1)
      else w1
  | None => w1
  end.
Proof.
  intros Hs. unfold handler. unfold bind at 1. unfold modify at 1.
  rewrite bind_gets. cbn [subs set_vendor]. rewrite Hs.
  destruct (callObject w) as [d|]; [|reflexivity].
  apply dispatch_subs_for.
Qed.

Lemma handleNewMeetingState_run c w :
  let w' := world_of (handleNewMeetingState (Some c) w) in
  callObject w' = callObject w /\ roomUrl w' = roomUrl w /\
  appState w' =
    (if vendor w c =? "joined-meeting" then STATE_JOINED
     else if vendor w c =? "left-meeting" then appState w
     else if vendor w c =? "error" then STATE_ERROR
     else appState w) /\
  log w' = log w ++ (if negb (vendor w c =? "joined-meeting") &&
                        (vendor w c =? "left-meeting")
                     then [Sdk c Destroy] else []) /\
  pending w' = pending w ++ (if negb (vendor w c =? "joined-meeting") &&
                                (vendor w c =? "left-meeting")
                             then [TDestroy c] else []).
Proof.
  unfold handleNewMeetingState, meetingState, bind, gets, deref, ret.
  cbn [truthy_ref].
  destruct (vendor w c =? "joined-meeting");
    [destruct w; cbn; rewrite !app_nil_r; auto|].
  destruct (vendor w c =? "left-meeting");
    [destruct w; cbn; auto|].
  destruct (vendor w c =? "error");
    destruct w; cbn; rewrite !app_nil_r; auto.
Qed.

(** A vendor event on the subscribed call object [c]: the handler reads
    the meeting state the accessor reports and nothing of the event. *)
Lemma vendor_step w c ev ms :
  phase w = Mounted -> subs w = subs_for (Some c) -> callObject w = Some c ->
  In ev events ->
  let w' := step w (Vendor c ev ms) in
  callObject w' = callObject w /\ roomUrl w' = roomUrl w /\
  appState w' =
    (if ms =? "joined-meeting" then STATE_JOINED
     else if ms =? "left-meeting" then appState w
     else if ms =? "error" then STATE_ERROR
     else appState w).
Proof.
  intros Hp Hs Hc Hev. cbv zeta.
  rewrite step_mounted by (auto; discriminate).
  rewrite vendor_handler by congruence. cbv zeta. rewrite Hc.
  rewrite Nat.eqb_refl.
  assert (Hm : existsb (fun e => e =? ev) events = true).
  { apply existsb_exists. exists ev. split; auto. apply String.eqb_refl. }
  rewrite Hm. cbn [andb].
  set (w1 := set_vendor _ w).
  destruct (handleNewMeetingState_run c w1) as (R1 & R2 & R3 & _).
  set (W := world_of (handleNewMeetingState (Some c) w1)) in *.
  assert (Hv : vendor w1 c = ms) by (subst w1; simpl; now rewrite Nat.eqb_refl).
  rewrite Hv in R3.
  destruct (commit_keeps_state w (roomUrl W) (callObject W)
              (apiError W) (phase W) (nextCall W) (vendor W) W)
    as (K1 & K2 & _); [repeat split; auto|].
  rewrite K1, K2, commit_appState_same.
  - rewrite R1, R2, R3. subst w1. simpl. auto.
  - rewrite R1. subst w1. simpl. rewrite Hc. simpl. apply Nat.eqb_refl.
Qed.

Lemma vendor_left_meeting_step w c ev :
  phase w = Mounted -> subs w = subs_for (Some c) -> callObject w = Some c ->
  In ev events ->
  let w' := step w (Vendor c ev "left-meeting") in
  log w' = log w ++ [Sdk c Destroy] /\
  pending w' = pending w ++ [TDestroy c] /\
  appState w' = appState w /\ roomUrl w' = roomUrl w /\
  callObject w' = callObject w.
Proof.
  intros Hp Hs Hc Hev. cbv zeta.
  rewrite step_mounted by (auto; discriminate).
  rewrite vendor_handler by congruence. cbv zeta. rewrite Hc.
  rewrite Nat.eqb_refl.
  assert (Hm : existsb (fun e => e =? ev) events = true).
  { apply existsb_exists. exists ev. split; auto. apply String.eqb_refl. }
  rewrite Hm. cbn [andb].
  set (w1 := set_vendor _ w).
  destruct (handleNewMeetingState_run c w1) as (R1 & R2 & R3 & R4 & R5).
  set (W := world_of (handleNewMeetingState (Some c) w1)) in *.
  assert (Hv : vendor w1 c = "left-meeting")
    by (subst w1; simpl; now rewrite Nat.eqb_refl).
  rewrite Hv in R3, R4, R5. simpl in R3, R4, R5.
  rewrite commit_noop.
  - rewrite R1, R2, R3, R4, R5. subst w1. cbn. auto.
  - rewrite R1. subst w1. simpl. rewrite Hc. simpl. apply Nat.eqb_refl.
  - rewrite R2. subst w1. simpl. apply jsval_eqb_refl.
Qed.

(** ** The controller's properties *)

(** C1. A leave action with a call object [c].  In the error state it
    calls [destroy()] on [c] and nothing else (no [leave()], no state
    change yet); when that promise resolves, the room URL and the call
    object reference are cleared and the state becomes idle.  In any other
    state it sets the state to leaving and calls [leave()] on [c], leaving
    the room URL, the call object reference and the pending promises as
    they were; the clean-up is started later by a left-meeting report
    ([destroy()] is called then) and completed when that promise
    resolves. *)
Theorem leave_action w c :
  callObject w = Some c ->
  let w1 := world_of (startLeavingCall (callObject w) (appState w) w) in
  (appState w = STATE_ERROR ->
     log w1 = log w ++ [Sdk c Destroy] /\
     pending w1 = pending w ++ [TDestroy c] /\
     appState w1 = appState w /\ roomUrl w1 = roomUrl w /\
     callObject w1 = callObject w) /\
  (appState w <> STATE_ERROR ->
     appState w1 = STATE_LEAVING /\
     log w1 = log w ++ [Sdk c Leave] /\
     pending w1 = pending w /\ roomUrl w1 = roomUrl w /\
     callObject w1 = callObject w) /\
  (forall w2 ev,
      phase w2 = Mounted -> callObject w2 = Some c ->
      subs w2 = subs_for (Some c) -> In ev events ->
      let w3 := step w2 (Vendor c ev "left-meeting") in
      log w3 = log w2 ++ [Sdk c Destroy] /\
      pending w3 = pending w2 ++ [TDestroy c] /\
      appState w3 = appState w2 /\ roomUrl w3 = roomUrl w2 /\
      callObject w3 = callObject w2) /\
  (forall w2,
      phase w2 = Mounted -> In (TDestroy c) (pending w2) ->
      let w3 := step w2 (DestroySettled c true) in
      roomUrl w3 = JNull /\ callObject w3 = None /\
      appState w3 = STATE_IDLE).
Proof.
  intros Hc. cbv zeta. rewrite Hc. repeat apply conj.
  - intros He. rewrite He. destruct w; cbn. auto.
  - intros He. apply String.eqb_neq in He.
    unfold startLeavingCall. rewrite He. destruct w; cbn. auto.
  - intros w2 ev Hp H2 Hs Hev.
    apply (vendor_left_meeting_step w2 c ev); auto.
  - intros w2 Hp Hin. apply (destroy_settled_step w2 c); auto.
Qed.

(** C2. When the room request fails, [createCall]'s error callback clears
    the room URL, sets the application state to idle and raises the error
    flag; and no step of the controller lowers the flag again: once raised
    it stays raised along every further sequence of events. *)
Theorem createCall_failure_sets_flag w :
  (let w' := world_of (createCall_settled Rejected w) in
   roomUrl w' = JNull /\ appState w' = STATE_IDLE /\ apiError w' = true) /\
  (forall es, apiError w = true -> apiError (run w es) = true).
Proof.
  split.
  - destruct w; cbn. auto.
  - intros es. revert w. induction es as [|e es IH]; intros w H; simpl; auto.
    apply IH. unfold step. apply (apiError_program e w w H).
Qed.

(** C3. The promise returned by [createCall] never rejects: whatever the
    room request settles with, it fulfils, and after a failed request it
    fulfils with [undefined], the error flag raised.  The continuation of
    the home screen's start handler therefore runs [startHairCheck] with
    an undefined URL: a call object with a handle not used before is
    created and pre-authorised, and the application state is set to
    hair-check, with the error flag set. *)
Theorem createCall_never_rejects :
  (forall r w, exists url w',
      createCall_settled r w = Ok (Fulfilled url) w') /\
  (forall w, exists w',
      createCall_settled Rejected w = Ok (Fulfilled JUndefined) w' /\
      apiError w' = true) /\
  (forall w,
      let w1 := world_of (startDemo_settled Rejected w) in
      log w1 = log w ++ [CreateCallObject (nextCall w);
                         Sdk (nextCall w) (PreAuth JUndefined)] /\
      callObject w1 = Some (nextCall w) /\ roomUrl w1 = JUndefined /\
      appState w1 = STATE_HAIRCHECK /\ apiError w1 = true) /\
  (forall h v es,
      let w := run (init h v) es in
      ~ In (CreateCallObject (nextCall w)) (log w)) /\
  (forall w,
      phase w = Mounted -> In TCreateRoom (pending w) ->
      let w1 := step w (RoomSettled Rejected) in
      In (CreateCallObject (nextCall w)) (log w1) /\
      callObject w1 = Some (nextCall w) /\ roomUrl w1 = JUndefined /\
      apiError w1 = true /\ renderApp w1 = ApiErrorView).
Proof.
  repeat apply conj.
  - intros r w. destruct r as [[url|]|]; cbn; eauto.
  - intros w. eexists. split; [reflexivity|]. destruct w; reflexivity.
  - intros w. destruct w; cbn. rewrite <- app_assoc. auto.
  - intros h v es w Hin.
    apply (reachable_handles_below w) in Hin; [lia|].
    apply reachable_run, reach_init.
  - intros w Hp Hin. cbv zeta.
    rewrite step_mounted by (auto; discriminate).
    apply take_task_live in Hin.
    set (W := world_of (handler (RoomSettled Rejected) w w)).
    assert (HW : In (CreateCallObject (nextCall w)) (log W) /\
                 callObject W = Some (nextCall w) /\
                 roomUrl W = JUndefined /\ apiError W = true).
    { subst W. unfold handler, take_task, bind, gets. rewrite Hin.
      destruct w; cbn. rewrite !in_app_iff. simpl. auto. }
    destruct HW as (H1 & H2 & H3 & H4).
    pose proof (commit_keeps_logged w _ W H1) as K1.
    destruct (commit_keeps_state w JUndefined (Some (nextCall w)) true
                (phase W) (nextCall W) (vendor W) W) as (K2 & K3 & K4 & _);
      [repeat split; auto|].
    repeat split; auto.
    unfold renderApp. rewrite K4. reflexivity.
Qed.

(** C4 (as the code has it). A camera-error event on the current call
    object runs the same handler as the other three events: the
    application state becomes error exactly when [meetingState()] reports
    error at that moment; a reported joined-meeting gives joined, and any
    other report leaves the application state as it was. *)
Theorem camera_error_follows_meeting_state h v es c ms :
  let w := run (init h v) es in
  phase w = Mounted -> callObject w = Some c ->
  let w' := step w (Vendor c "camera-error" ms) in
  appState w' =
    (if ms =? "joined-meeting" then STATE_JOINED
     else if ms =? "left-meeting" then appState w
     else if ms =? "error" then STATE_ERROR
     else appState w) /\
  (ms = "error" -> appState w' = STATE_ERROR) /\
  (ms <> "error" -> appState w <> STATE_ERROR -> appState w' <> STATE_ERROR).
Proof.
  intros w Hp Hc. cbv zeta.
  assert (Hr : reachable w) by (apply reachable_run, reach_init).
  pose proof (subs_reachable w Hr) as Hinv. rewrite Hp, Hc in Hinv.
  destruct (vendor_step w c "camera-error" ms Hp Hinv Hc) as (_ & _ & A).
  { unfold events. simpl. tauto. }
  cbv zeta in A. rewrite A. repeat split.
  - intros ->. reflexivity.
  - intros Hn He.
    destruct (ms =? "joined-meeting"); [discriminate|].
    destruct (ms =? "left-meeting"); [exact He|].
    destruct (ms =? "error") eqn:E; [|exact He].
    apply String.eqb_eq in E. contradiction.
Qed.



(** C7. In every reachable state of the mounted controller the live
    subscriptions are exactly one handler on each of joined-meeting,
    left-meeting, error and camera-error of the current call object, and
    none when there is no call object.  The handler ignores which event
    fired: the step is the same for any two of the four events, the new
    application state being a function of what [meetingState()] reports;
    an event outside the four is not handled.  When a step replaces or
    clears the call object reference, [off] is called for the four events
    on the old object and none of its subscriptions remains; the same
    happens on unmount. *)
Theorem subscriptions_follow_call_object h v es :
  let w := run (init h v) es in
  (phase w = Mounted -> subs w = subs_for (callObject w)) /\
  (forall c ev1 ev2 ms,
      In ev1 events -> In ev2 events ->
      step w (Vendor c ev1 ms) = step w (Vendor c ev2 ms)) /\
  (forall c ev ms,
      phase w = Mounted -> callObject w = Some c -> In ev events ->
      appState (step w (Vendor c ev ms)) =
        (if ms =? "joined-meeting" then STATE_JOINED
         else if ms =? "left-meeting" then appState w
         else if ms =? "error" then STATE_ERROR
         else appState w)) /\
  (forall c ev ms,
      ~ In ev events ->
      let w' := step w (Vendor c ev ms) in
      appState w' = appState w /\ log w' = log w /\
      pending w' = pending w) /\
  (forall e c,
      phase w = Mounted -> callObject w = Some c ->
      callObject (step w e) <> Some c ->
      forall ev,
        ~ In (c, ev) (subs (step w e)) /\
        (In ev events -> In (Sdk c (Off ev)) (log (step w e)))) /\
  (forall c,
      phase w = Mounted -> callObject w = Some c ->
      subs (step w Unmount) = [] /\
      forall ev, In ev events -> In (Sdk c (Off ev)) (log (step w Unmount))).
Proof.
  intros w.
  assert (Hr : reachable w) by (apply reachable_run, reach_init).
  pose proof (subs_reachable w Hr) as Hinv.
  assert (Hsub : phase w = Mounted -> subs w = subs_for (callObject w)).
  { intros Hp. rewrite Hp in Hinv. exact Hinv. }
  repeat apply conj.
  - exact Hsub.
  - intros c ev1 ev2 ms H1 H2.
    destruct (phase w) eqn:Hp.
    + rewrite !step_not_mounted by (congruence || discriminate). reflexivity.
    + rewrite !step_mounted by (auto; discriminate).
      rewrite !vendor_handler by auto.
      assert (M1 : existsb (fun e => e =? ev1) events = true).
      { apply existsb_exists. exists ev1. split; auto.
        apply String.eqb_refl. }
      assert (M2 : existsb (fun e => e =? ev2) events = true).
      { apply existsb_exists. exists ev2. split; auto.
        apply String.eqb_refl. }
      rewrite M1, M2. reflexivity.
    + rewrite !step_not_mounted by (congruence || discriminate). reflexivity.
  - intros c ev ms Hp Hc Hev.
    apply (vendor_step w c ev ms); auto. rewrite <- Hc. auto.
  - intros c ev ms Hn. cbv zeta.
    destruct (phase w) eqn:Hp.
    + rewrite step_not_mounted by (congruence || discriminate). auto.
    + rewrite step_mounted by (auto; discriminate).
      rewrite vendor_handler by auto. cbv zeta.
      assert (M : existsb (fun e => e =? ev) events = false).
      { destruct (existsb (fun e => e =? ev) events) eqn:E; auto.
        apply existsb_exists in E. destruct E as (x & Hx & E).
        apply String.eqb_eq in E. subst x. contradiction. }
      rewrite M.
      assert (K : forall W, W = set_vendor
                    (fun d => if Nat.eqb d c then ms else vendor w d) w ->
                  world_of (commit w W) = W).
      { intros W ->. apply commit_noop; simpl.
        - destruct (callObject w); simpl; auto using Nat.eqb_refl.
        - apply jsval_eqb_refl. }
      destruct (callObject w); rewrite ?andb_false_r;
        rewrite K by reflexivity; simpl; auto.
    + rewrite step_not_mounted by (congruence || discriminate). auto.
  - intros e c Hp Hc Hne ev.
    assert (He : e <> Mount /\ e <> Unmount).
    { split; intros ->.
      - apply Hne. unfold step, program. rewrite Hp. exact Hc.
      - apply Hne. unfold step, program. rewrite Hp.
        apply (unmount_keeps_call (Some c) w Hc). }
    destruct He as (Hm & Hu).
    pose proof (subs_reachable (step w e) (reach_step _ _ Hr)) as Hinv'.
    revert Hne Hinv'. rewrite step_mounted by auto.
    set (W := world_of (handler e w w)). intros Hne Hinv'.
    destruct (commit_keeps_state w (roomUrl W) (callObject W)
                (apiError W) (phase W) (nextCall W) (vendor W) W)
      as (_ & K2 & _ & K4 & _); [repeat split; auto|].
    destruct (handler_keeps_page e w (subs w) (phase w) (href w)
                (history w) w) as (_ & F2 & _); [auto|].
    fold W in F2. rewrite K4, F2, Hp in Hinv'.
    split.
    + intros Hin. rewrite Hinv' in Hin. apply In_subs_for in Hin.
      contradiction.
    + intros Hev. apply commit_logs_off; auto. rewrite <- K2. exact Hne.
  - intros c Hp Hc.
    destruct (unmount_step w c Hp Hc) as (U1 & _ & U3).
    + rewrite <- Hc. auto.
    + auto.
Qed.

(** C8. Along every sequence of user actions and vendor events, starting
    from the first render, the application state is one of the seven
    enumerated values, and these seven values are pairwise distinct, so it
    is exactly one of them. *)
Theorem app_state_enumerated :
  NoDup app_states /\
  forall h v es, In (appState (run (init h v) es)) app_states.
Proof.
  split.
  - unfold app_states.
    repeat (constructor; [simpl; intuition discriminate|]). constructor.
  - intros h v es.
    apply (reachable_ind_pres app_state_ok).
    + intros; unfold app_state_ok; simpl; tauto.
    + apply app_state_ok_program.
    + apply reachable_run, reach_init.
Qed.

(** C9. The effect on the room URL computes the page URL from the room
    URL and the current address and writes it with one [replaceState],
    unless it equals the current address, in which case nothing is
    written.  In every step of the mounted controller the history writes
    are those of this effect: none when the step leaves the room URL as
    it was, and otherwise the one write for the new room URL, made only
    when the computed URL differs from the address.  The first commit
    runs the effect for the initial null room URL and, when the mount
    effect set a room URL, once more for it, each time under the same
    comparison. *)
Theorem page_address_follows_room_url w :
  (forall u,
      let pageUrl := pageUrlFromRoomUrl (href w) u in
      let w' := world_of (roomUrlEffect u w) in
      if pageUrl =? href w then w' = w
      else log w' = log w ++ [ReplaceState pageUrl] /\ href w' = pageUrl) /\
  (forall e,
      phase w = Mounted ->
      let w' := step w e in
      let pageUrl := pageUrlFromRoomUrl (href w) (roomUrl w') in
      if jsval_eqb (roomUrl w) (roomUrl w') then
        history w' = history w /\ href w' = href w
      else if pageUrl =? href w then
        history w' = history w /\ href w' = href w
      else
        history w' = history w ++ [ReplaceState pageUrl] /\
        href w' = pageUrl) /\
  (forall h v,
      let w' := step (init h v) Mount in
      let p0 := pageUrlFromRoomUrl h JNull in
      let h1 := if p0 =? h then h else p0 in
      let p1 := pageUrlFromRoomUrl h1 (roomUrl w') in
      history w' =
        (if p0 =? h then [] else [ReplaceState p0]) ++
        (if jsval_eqb JNull (roomUrl w') || (p1 =? h1) then []
         else [ReplaceState p1])).
Proof.
  split; [|split]; [| |intros h v; apply mount_history].
  - intros u. cbv zeta. unfold roomUrlEffect, bind, gets.
    destruct (pageUrlFromRoomUrl (href w) u =? href w) eqn:E.
    + reflexivity.
    + destruct w; cbn. auto.
  - intros e Hp. cbv zeta.
    assert (Hs : e = Mount \/ e = Unmount \/ (e <> Mount /\ e <> Unmount))
      by (destruct e; auto; right; right; split; discriminate).
    destruct Hs as [-> | [-> | [Hm Hu]]].
    + unfold step, program. rewrite Hp. simpl.
      rewrite jsval_eqb_refl. auto.
    + assert (Hk : roomUrl (step w Unmount) = roomUrl w /\
                   history (step w Unmount) = history w /\
                   href (step w Unmount) = href w).
      { unfold step, program. rewrite Hp.
        assert (K : pres (fun x => roomUrl x = roomUrl w /\
                                   history x = history w /\
                                   href x = href w) unmount).
        { pres_split; apply pres_modify; unfold history; simpl;
            intros wx Hx; rewrite ?history_snoc; simpl;
            rewrite ?app_nil_r; tauto. }
        apply K. auto. }
      destruct Hk as (K1 & K2 & K3). rewrite K1, jsval_eqb_refl. auto.
    + rewrite step_mounted by auto.
      set (W := world_of (handler e w w)).
      destruct (handler_keeps_page e w (subs w) (phase w) (href w)
                  (history w) w) as (_ & _ & F1 & F2); [auto|].
      fold W in F1, F2.
      destruct (commit_keeps_state w (roomUrl W) (callObject W)
                  (apiError W) (phase W) (nextCall W) (vendor W) W)
        as (K1 & _); [repeat split; auto|].
      rewrite K1. pose proof (commit_history w W) as C.
      cbv zeta in C. rewrite F1, F2 in C.
      destruct (jsval_eqb (roomUrl w) (roomUrl W)); simpl in C; [exact C|].
      destruct (pageUrlFromRoomUrl (href w) (roomUrl W) =? href w);
        exact C.
Qed.

(** C10. [joinCall] makes no SDK call and changes nothing unless both the
    call object and the room URL are non-null; [startLeavingCall] makes no
    SDK call and changes nothing when the call object is null; and neither
    ever throws, that is, neither calls a method on a null call object. *)
Theorem join_and_leave_guarded w :
  (forall co url, co = None \/ url = JNull ->
                  joinCall co url w = Ok tt w) /\
  (forall st, startLeavingCall None st w = Ok tt w) /\
  (forall co url, exists w', joinCall co url w = Ok tt w') /\
  (forall co st, exists w', startLeavingCall co st w = Ok tt w').
Proof.
  repeat split.
  - intros co url [-> | ->]; [reflexivity|].
    unfold joinCall. destruct co; reflexivity.
  - intros co url. unfold joinCall.
    destruct co as [c|]; simpl; [|eexists; reflexivity].
    destruct (truthy url); eexists; reflexivity.
  - intros co st. unfold startLeavingCall.
    destruct co as [c|]; simpl; [|eexists; reflexivity].
    destruct (st =? STATE_ERROR); eexists; reflexivity.
Qed.

(** ** Further properties of the controller *)

(** *** States the controller never enters *)

Lemma reachable_app_states w :
  reachable w ->
  In (appState w)
     [STATE_IDLE; STATE_CREATING; STATE_HAIRCHECK; STATE_JOINED;
      STATE_LEAVING; STATE_ERROR].
Proof.
  revert w.
  apply (reachable_ind_pres
           (fun x => In (appState x)
                        [STATE_IDLE; STATE_CREATING; STATE_HAIRCHECK;
                         STATE_JOINED; STATE_LEAVING; STATE_ERROR])).
  - intros; simpl; tauto.
  - pres_split; apply pres_modify; simpl; intros; tauto.
Qed.

(** X1. [joinCall] calls [join()] without touching the application state
    and no other code sets it to joining: along every sequence of events
    the application state is never joining, so the call view is only ever
    rendered in the joined and error states. *)
Theorem never_joining h v es :
  let w := run (init h v) es in
  appState w <> STATE_JOINING /\
  (renderApp w = CallView ->
   appState w = STATE_JOINED \/ appState w = STATE_ERROR).
Proof.
  cbv zeta.
  assert (H : In (appState (run (init h v) es))
                 [STATE_IDLE; STATE_CREATING; STATE_HAIRCHECK; STATE_JOINED;
                  STATE_LEAVING; STATE_ERROR])
    by (apply reachable_app_states, reachable_run, reach_init).
  split.
  - intros E. rewrite E in H. simpl in H. intuition discriminate.
  - unfold renderApp, showHairCheck, showCall.
    simpl in H. destruct H as [H|[H|[H|[H|[H|[H|[]]]]]]]; rewrite <- H;
      destruct (apiError (run (init h v) es));
      destruct (callObject (run (init h v) es)); simpl; auto;
      discriminate.
Qed.

(** *** The room-creation error flag *)

Lemma click_without_screen w b :
  view_eqb (renderApp w) (screen_of b) = false -> step w (Click b) = w.
Proof.
  intros Hv. destruct (phase w) eqn:Hp;
    try (apply step_not_mounted; congruence || discriminate).
  rewrite step_mounted by (auto; discriminate).
  unfold handler. rewrite Hv. cbn [when ret world_of].
  apply commit_noop.
  - destruct (callObject w); simpl; auto using Nat.eqb_refl.
  - apply jsval_eqb_refl.
Qed.

(** X2. Once the error flag is up, [renderApp] returns the error view in
    every later state, whatever the application state and the call object
    are; no button of the other screens is rendered, so every click is
    without effect. *)
Theorem api_error_blocks_ui w es b :
  apiError w = true ->
  let w' := run w es in
  renderApp w' = ApiErrorView /\ step w' (Click b) = w'.
Proof.
  intros H. cbv zeta.
  assert (H' : apiError (run w es) = true).
  { revert w H. induction es as [|e es IH]; intros w H; simpl; auto.
    apply IH. unfold step. apply (apiError_program e w w H). }
  assert (Hv : renderApp (run w es) = ApiErrorView)
    by (unfold renderApp; rewrite H'; reflexivity).
  split; [exact Hv|].
  apply click_without_screen. rewrite Hv. destruct b; reflexivity.
Qed.

Lemma startDemo_settled_room u w :
  startDemo_settled (Fulfilled (RoomObj u)) w =
  Ok (Fulfilled tt) (world_of (startHairCheck u w)).
Proof. destruct w; reflexivity. Qed.

Lemma startHairCheck_run url w :
  let w' := world_of (startHairCheck url w) in
  appState w' = STATE_HAIRCHECK /\ roomUrl w' = url /\
  callObject w' = Some (nextCall w) /\ apiError w' = apiError w /\
  nextCall w' = S (nextCall w) /\
  log w' = log w ++ [CreateCallObject (nextCall w);
                     Sdk (nextCall w) (PreAuth url)] /\
  pending w' = pending w ++ [TPreAuth (nextCall w)] /\
  subs w' = subs w /\ phase w' = phase w /\ href w' = href w /\
  vendor w' = vendor w.
Proof. destruct w; cbn. rewrite <- app_assoc. repeat split. Qed.

Lemma take_task_dead t w :
  existsb (task_eqb t) (pending w) = false -> take_task t w = Ok false w.
Proof. intros H. unfold take_task, bind, gets. rewrite H. reflexivity. Qed.

Lemma commit_same w : world_of (commit w w) = w.
Proof.
  apply commit_noop.
  - destruct (callObject w); simpl; auto using Nat.eqb_refl.
  - apply jsval_eqb_refl.
Qed.

(** X3. The error flag belongs to the room request alone.  A step raises
    it only when it settles a pending room request that was rejected or
    resolved with a nullish room (reading [room.url] throws into the
    [catch]); and every such step raises it.  No vendor event, click or
    SDK promise ever raises it. *)
Theorem api_error_only_from_room_request w e :
  (apiError w = false -> apiError (step w e) = true ->
   exists r, e = RoomSettled r /\
             (r = Rejected \/ r = Fulfilled RoomNullish) /\
             phase w = Mounted /\ In TCreateRoom (pending w)) /\
  (forall r, r = Rejected \/ r = Fulfilled RoomNullish ->
             phase w = Mounted -> In TCreateRoom (pending w) ->
             apiError (step w (RoomSettled r)) = true).
Proof.
  split.
  - intros H0 H1.
    assert (He : (exists r, e = RoomSettled r) \/
                 (forall r, e <> RoomSettled r))
      by (destruct e; try (right; discriminate); left; eauto).
    destruct He as [(r & ->)|He].
    + destruct (phase w) eqn:Hp;
        try (rewrite step_not_mounted in H1 by (congruence || discriminate);
             congruence).
      rewrite step_mounted in H1 by (auto; discriminate).
      destruct (existsb (task_eqb TCreateRoom) (pending w)) eqn:E.
      * exists r. repeat split; auto.
        -- destruct r as [[u|]|]; auto. exfalso.
           set (W := world_of (handler (RoomSettled (Fulfilled (RoomObj u)))
                                       w w)) in *.
           assert (HW : apiError W = false).
           { subst W. unfold handler, take_task, bind, gets. rewrite E.
             cbn [modify ret when]. rewrite startDemo_settled_room.
             cbn [world_of ret].
             destruct (startHairCheck_run u
                         (set_pending (remove_task TCreateRoom (pending w)) w))
               as (_ & _ & _ & A & _).
             rewrite A. exact H0. }
           destruct (commit_keeps_state w (roomUrl W) (callObject W)
                       false (phase W) (nextCall W) (vendor W) W)
             as (_ & _ & K & _); [repeat split; auto|]. congruence.
        -- apply existsb_exists in E. destruct E as (t & Ht & E).
           apply task_eqb_eq in E. subst t. exact Ht.
      * exfalso. revert H1. unfold handler.
        unfold bind at 1. rewrite take_task_dead by exact E.
        cbn [when ret world_of]. rewrite commit_same. congruence.
    + exfalso.
      assert (K : pres (fun x => apiError x = false) (program e w)).
      { destruct e; try (exfalso; eapply He; reflexivity).
        all: pres_split; apply pres_modify; simpl; intros; tauto. }
      specialize (K w H0). unfold step in H1. congruence.
  - intros r Hr Hp Hin.
    rewrite step_mounted by (auto; discriminate).
    apply take_task_live in Hin.
    set (W := world_of (handler (RoomSettled r) w w)).
    assert (HW : apiError W = true).
    { subst W. unfold handler, take_task, bind, gets. rewrite Hin.
      destruct Hr as [-> | ->]; destruct w; reflexivity. }
    destruct (commit_keeps_state w (roomUrl W) (callObject W)
                true (phase W) (nextCall W) (vendor W) W)
      as (_ & _ & K & _); [repeat split; auto|]. exact K.
Qed.

(** *** Promises of the vendor SDK that reject *)

Lemma take_task_run t w :
  existsb (task_eqb t) (pending w) = true ->
  take_task t w = Ok true (set_pending (remove_task t (pending w)) w).
Proof. intros H. unfold take_task, bind, gets. rewrite H. reflexivity. Qed.

Lemma commit_pending_only w l :
  world_of (commit w (set_pending l w)) = set_pending l w.
Proof.
  apply commit_noop; simpl.
  - destruct (callObject w); simpl; auto using Nat.eqb_refl.
  - apply jsval_eqb_refl.
Qed.

(** X4. Neither [preAuth()] nor [destroy()] has a rejection handler.  When
    one of them rejects, its continuation is dropped and nothing else
    happens: [startCamera()] is not called, and the room URL, the call
    object reference and the application state stay as they are, so a
    leaving or error state is not left by that step. *)
Theorem rejected_sdk_promise_changes_nothing w c :
  phase w = Mounted ->
  (let w' := step w (PreAuthSettled c false) in
   log w' = log w /\ appState w' = appState w /\ roomUrl w' = roomUrl w /\
   callObject w' = callObject w /\ subs w' = subs w /\
   pending w' = (if existsb (task_eqb (TPreAuth c)) (pending w)
                 then remove_task (TPreAuth c) (pending w)
                 else pending w)) /\
  (let w' := step w (DestroySettled c false) in
   log w' = log w /\ appState w' = appState w /\ roomUrl w' = roomUrl w /\
   callObject w' = callObject w /\ subs w' = subs w /\
   pending w' = (if existsb (task_eqb (TDestroy c)) (pending w)
                 then remove_task (TDestroy c) (pending w)
                 else pending w)).
Proof.
  intros Hp. cbv zeta. split.
  - rewrite step_mounted by (auto; discriminate).
    unfold handler, bind.
    destruct (existsb (task_eqb (TPreAuth c)) (pending w)) eqn:E.
    + rewrite take_task_run by exact E. cbn [andb when ret world_of].
      rewrite commit_pending_only. simpl. repeat split; reflexivity.
    + rewrite take_task_dead by exact E. cbn [andb when ret world_of].
      rewrite commit_same. repeat split; reflexivity.
  - rewrite step_mounted by (auto; discriminate).
    unfold handler, bind.
    destruct (existsb (task_eqb (TDestroy c)) (pending w)) eqn:E.
    + rewrite take_task_run by exact E. cbn [andb when ret world_of].
      rewrite commit_pending_only. simpl. repeat split; reflexivity.
    + rewrite take_task_dead by exact E. cbn [andb when ret world_of].
      rewrite commit_same. repeat split; reflexivity.
Qed.

(** *** Events of a call object that is not the current one *)

(** X5. The handlers are subscribed on the current call object only.  An
    event emitted by any other call object, for instance one that was
    replaced or cleared, runs no handler: the step changes nothing the
    controller owns and makes no SDK call. *)
Theorem stale_call_object_ignored h v es c ev ms :
  let w := run (init h v) es in
  callObject w <> Some c ->
  let w' := step w (Vendor c ev ms) in
  appState w' = appState w /\ roomUrl w' = roomUrl w /\
  callObject w' = callObject w /\ apiError w' = apiError w /\
  log w' = log w /\ pending w' = pending w /\ subs w' = subs w.
Proof.
  intros w Hne. cbv zeta.
  assert (Hr : reachable w) by (apply reachable_run, reach_init).
  destruct (phase w) eqn:Hp;
    try (rewrite step_not_mounted by (congruence || discriminate);
         repeat split; reflexivity).
  pose proof (subs_reachable w Hr) as Hinv. rewrite Hp in Hinv.
  rewrite step_mounted by (auto; discriminate).
  rewrite vendor_handler by exact Hinv. cbv zeta.
  assert (K : forall W, W = set_vendor
                (fun d => if Nat.eqb d c then ms else vendor w d) w ->
              world_of (commit w W) = W).
  { intros W ->. apply commit_noop; simpl.
    - destruct (callObject w); simpl; auto using Nat.eqb_refl.
    - apply jsval_eqb_refl. }
  destruct (callObject w) as [d|] eqn:Hc.
  - assert (E : Nat.eqb d c = false)
      by (apply Nat.eqb_neq; congruence).
    rewrite E. cbn [andb]. rewrite K by reflexivity.
    simpl. rewrite Hc. repeat split; reflexivity.
  - rewrite K by reflexivity. simpl. rewrite Hc. repeat split; reflexivity.
Qed.

(** *** The start button *)

Lemma click_with_screen w b :
  phase w = Mounted -> view_eqb (renderApp w) (screen_of b) = true ->
  step w (Click b) = world_of (commit w (world_of (onClick b w w))).
Proof.
  intros Hp Hv. rewrite step_mounted by (auto; discriminate).
  unfold handler. rewrite Hv. reflexivity.
Qed.

(** X6. The home screen is the default branch of [renderApp]: without an
    error flag it is what is rendered in the idle, creating and leaving
    states, with or without a call object.  Its start button is not
    guarded by the application state: every click there sets the state to
    creating and sends one more room request, also while an earlier
    request or a leave is still in progress, and the home screen stays
    rendered. *)
Theorem start_click_always_requests_room w :
  phase w = Mounted -> apiError w = false ->
  appState w = STATE_IDLE \/ appState w = STATE_CREATING \/
  appState w = STATE_LEAVING ->
  let w' := step w (Click StartButton) in
  renderApp w = HomeView /\
  appState w' = STATE_CREATING /\
  log w' = log w ++ [ApiCreateRoom] /\
  pending w' = pending w ++ [TCreateRoom] /\
  roomUrl w' = roomUrl w /\ callObject w' = callObject w /\
  renderApp w' = HomeView.
Proof.
  intros Hp Ha Hs. cbv zeta.
  assert (Hv : renderApp w = HomeView).
  { unfold renderApp, showHairCheck, showCall. rewrite Ha.
    destruct Hs as [-> | [-> | ->]]; reflexivity. }
  split; [exact Hv|].
  rewrite click_with_screen by (auto; rewrite Hv; reflexivity).
  assert (HW : world_of (onClick StartButton w w) =
               set_pending (pending w ++ [TCreateRoom])
                 (set_log (log w ++ [ApiCreateRoom])
                    (set_appState STATE_CREATING w)))
    by (destruct w; reflexivity).
  rewrite HW. rewrite commit_noop; simpl.
  - unfold renderApp, showHairCheck, showCall. simpl. rewrite Ha.
    repeat split; reflexivity.
  - destruct (callObject w); simpl; auto using Nat.eqb_refl.
  - apply jsval_eqb_refl.
Qed.

(** *** The room request resolves *)

(** X7. [createCall] passes on [room.url] unchecked and the start handler
    hands it to [startHairCheck]: when a pending room request resolves
    with a room, that URL, whatever it is, becomes the room URL, a new
    call object is created and pre-authorised with it, and the error flag
    is left alone.  If the URL is missing or empty, [joinCall] finds a
    falsy room URL: in every state with a falsy room URL the join button
    calls nothing and changes nothing. *)
Theorem room_request_resolved w u :
  (phase w = Mounted -> In TCreateRoom (pending w) ->
   let w' := step w (RoomSettled (Fulfilled (RoomObj u))) in
   roomUrl w' = u /\ callObject w' = Some (nextCall w) /\
   apiError w' = apiError w /\
   In (CreateCallObject (nextCall w)) (log w') /\
   In (Sdk (nextCall w) (PreAuth u)) (log w')) /\
  (truthy u = false -> roomUrl w = u -> step w (Click JoinButton) = w).
Proof.
  split.
  - intros Hp Hin. cbv zeta.
    rewrite step_mounted by (auto; discriminate).
    apply take_task_live in Hin.
    set (W := world_of (handler (RoomSettled (Fulfilled (RoomObj u))) w w)).
    assert (HW : W = world_of (startHairCheck u
                   (set_pending (remove_task TCreateRoom (pending w)) w))).
    { subst W. unfold handler, bind. rewrite take_task_run by exact Hin.
      cbn [when]. rewrite startDemo_settled_room. reflexivity. }
    destruct (startHairCheck_run u
                (set_pending (remove_task TCreateRoom (pending w)) w))
      as (_ & A2 & A3 & A4 & _ & A6 & _).
    rewrite <- HW in A2, A3, A4, A6. simpl in A3, A4, A6.
    destruct (commit_keeps_state w u (Some (nextCall w)) (apiError w)
                (phase W) (nextCall W) (vendor W) W)
      as (K1 & K2 & K3 & _); [repeat split; auto|].
    repeat split; auto.
    + apply commit_keeps_logged. rewrite A6, in_app_iff. simpl. auto.
    + apply commit_keeps_logged. rewrite A6, in_app_iff. simpl. auto.
  - intros Hu Hr.
    destruct (view_eqb (renderApp w) (screen_of JoinButton)) eqn:Hv;
      [|apply click_without_screen; exact Hv].
    destruct (phase w) eqn:Hp;
      try (apply step_not_mounted; congruence || discriminate).
    rewrite click_with_screen by auto.
    assert (HW : world_of (onClick JoinButton w w) = w).
    { unfold onClick, joinCall. rewrite Hr, Hu, andb_false_r. reflexivity. }
    rewrite HW. apply commit_same.
Qed.

(** *** Leaving from the error state *)

(** X8. After an in-call error the call view stays rendered, so the leave
    button is there, and leaving recovers the home screen: the click calls
    [destroy()] on the call object, and when that promise resolves the
    state is idle, the room URL and the call object are cleared, no
    subscription is left, and the home screen is rendered again. *)
Theorem error_state_recovers_by_leave h v es c :
  let w := run (init h v) es in
  phase w = Mounted -> apiError w = false ->
  appState w = STATE_ERROR -> callObject w = Some c ->
  let w1 := step w (Click LeaveButton) in
  let w2 := step w1 (DestroySettled c true) in
  renderApp w = CallView /\
  log w1 = log w ++ [Sdk c Destroy] /\ appState w1 = STATE_ERROR /\
  appState w2 = STATE_IDLE /\ roomUrl w2 = JNull /\ callObject w2 = None /\
  subs w2 = [] /\ renderApp w2 = HomeView.
Proof.
  intros w Hp Ha Hs Hc. cbv zeta.
  assert (Hr : reachable w) by (apply reachable_run, reach_init).
  assert (Hv : renderApp w = CallView).
  { unfold renderApp, showHairCheck, showCall. rewrite Ha, Hs, Hc.
    reflexivity. }
  assert (H1 : step w (Click LeaveButton) =
               set_pending (pending w ++ [TDestroy c])
                 (set_log (log w ++ [Sdk c Destroy]) w)).
  { rewrite click_with_screen by (auto; rewrite Hv; reflexivity).
    assert (HW : world_of (onClick LeaveButton w w) =
                 set_pending (pending w ++ [TDestroy c])
                   (set_log (log w ++ [Sdk c Destroy]) w)).
    { unfold onClick, startLeavingCall. rewrite Hc, Hs.
      destruct w; reflexivity. }
    rewrite HW. apply commit_noop; simpl.
    - destruct (callObject w); simpl; auto using Nat.eqb_refl.
    - apply jsval_eqb_refl. }
  set (w1 := step w (Click LeaveButton)) in *.
  assert (Hr1 : reachable w1) by (apply reach_step, Hr).
  assert (Hp1 : phase w1 = Mounted) by (rewrite H1; exact Hp).
  assert (Hin : In (TDestroy c) (pending w1))
    by (rewrite H1; simpl; rewrite in_app_iff; simpl; auto).
  destruct (destroy_settled_step w1 c Hp1 Hin) as (D1 & D2 & D3).
  set (w2 := step w1 (DestroySettled c true)) in *.
  assert (Hr2 : reachable w2) by (apply reach_step, Hr1).
  assert (Ha2 : apiError w2 = false /\ phase w2 = Mounted).
  { subst w2. rewrite step_mounted by (auto; discriminate).
    set (W := world_of (handler (DestroySettled c true) w1 w1)).
    assert (HW : apiError W = false /\ phase W = Mounted).
    { subst W. unfold handler, bind.
      rewrite take_task_run by (apply take_task_live, Hin).
      cbn [andb when]. rewrite H1. destruct w; simpl in *. auto. }
    destruct HW as (HW1 & HW2).
    destruct (commit_keeps_state w1 (roomUrl W) (callObject W) false
                Mounted (nextCall W) (vendor W) W)
      as (_ & _ & K3 & K4 & _); [repeat split; auto|]. auto. }
  destruct Ha2 as (Ha2 & Hp2).
  pose proof (subs_reachable w2 Hr2) as Hinv. rewrite Hp2, D2 in Hinv.
  repeat split; auto.
  - rewrite H1. reflexivity.
  - rewrite H1. simpl. exact Hs.
  - unfold renderApp, showHairCheck, showCall. rewrite Ha2, D3. reflexivity.
Qed.

(** *** Callbacks return normally *)















(** *** Invariants kept by whole callbacks *)

Ltac head_of t :=
  lazymatch t with
  | ?f _ => head_of f
  | _ => t
  end.

(** Open the computation at the head of a preservation goal, one
    definition at a time, so that a callback for which a lemma is at hand
    is met as a whole. *)
Ltac pres_open :=
  lazymatch goal with
  | |- pres _ ?m =>
      let h := head_of m in
      lazymatch h with
      | @modify => fail
      | _ => unfold h
      end
  end.

Lemma pres_bind_deref {B} P d (k : CallId -> M B) :
  pres P (k d) -> pres P (bind (deref (Some d)) k).
Proof. intros H w Hw. exact (H w Hw). Qed.

Ltac pres_known :=
  lazymatch goal with
  | |- pres _ (bind (deref (Some _)) _) => apply pres_bind_deref
  end.

Ltac pres_walk :=
  intros;
  repeat (cbv beta iota;
          first [ solve [auto] | pres_known | pres_step | pres_open ]).

Lemma url_needs_call_startHairCheck url :
  pres url_needs_call (startHairCheck url).
Proof.
  intros w _ Hc. destruct (startHairCheck_run url w) as (_ & _ & A & _).
  cbv zeta in A. congruence.
Qed.

Lemma url_needs_call_destroy_then : pres url_needs_call destroy_then.
Proof. intros w _ _. destruct w; reflexivity. Qed.

Lemma url_needs_call_program e w0 : pres url_needs_call (program e w0).
Proof.
  pose proof url_needs_call_startHairCheck.
  pose proof url_needs_call_destroy_then.
  pres_walk; apply pres_modify; unfold url_needs_call; simpl; auto.
Qed.

(** X10. The room URL and the call object are set together by
    [startHairCheck] and cleared together after [destroy()]; the error
    path of [createCall] clears the room URL alone.  So in every reachable
    state a room URL is held only while a call object is: with no call
    object the room URL is null. *)
Theorem room_url_only_with_call_object h v es :
  let w := run (init h v) es in
  callObject w = None -> roomUrl w = JNull.
Proof.
  cbv zeta.
  apply (reachable_ind_pres url_needs_call).
  - intros; unfold url_needs_call; reflexivity.
  - apply url_needs_call_program.
  - apply reachable_run, reach_init.
Qed.

Lemma joins_have_url_joinCall co url : pres joins_have_url (joinCall co url).
Proof.
  intros w H. unfold joinCall.
  destruct co as [c|]; cbn [truthy_ref andb]; [|exact H].
  destruct (truthy url) eqn:E; [|exact H].
  intros d u Hin. cbn in Hin. apply in_app_iff in Hin.
  destruct Hin as [Hin|[Hin|[]]]; [eapply H, Hin|].
  injection Hin as _ <-. exact E.
Qed.

Lemma joins_have_url_program e w0 : pres joins_have_url (program e w0).
Proof.
  pose proof joins_have_url_joinCall.
  pres_walk; apply pres_modify; unfold joins_have_url; simpl;
    intros wx Hx cx ux Hin; rewrite ?in_app_iff in Hin; simpl in Hin;
    intuition (try discriminate; eauto).
Qed.

(** X11. [join()] is called from [joinCall] alone, behind its check of the
    call object and the room URL: every [join()] call the controller ever
    makes carries a truthy URL, never null, undefined or the empty string,
    also after a room request that failed or returned no URL. *)
Theorem join_always_has_url h v es c u :
  In (Sdk c (Join u)) (log (run (init h v) es)) -> truthy u = true.
Proof.
  apply (reachable_ind_pres joins_have_url).
  - intros h0 v0 c0 u0 [].
  - apply joins_have_url_program.
  - apply reachable_run, reach_init.
Qed.








(** *** States that follow the vendor's report *)

Lemma commit_appState old w :
  appState (world_of (commit old w)) =
  if ref_eqb (callObject old) (callObject w) then appState w
  else match callObject w with
       | Some c =>
           if vendor w c =? "joined-meeting" then STATE_JOINED
           else if vendor w c =? "left-meeting" then appState w
           else if vendor w c =? "error" then STATE_ERROR
           else appState w
       | None => appState w
       end.
Proof.
  destruct old, w; simpl.
  destruct callObject0 as [c0|], callObject1 as [c1|]; mrun.
  all: repeat (case_head; mrun); use_cases; try reflexivity.
Qed.

Lemma phase_leaves_fresh e w0 :
  pres (fun x => phase x <> Fresh) (program e w0).
Proof.
  pres_split; apply pres_modify; simpl; intros; auto; discriminate.
Qed.

Lemma mount_phase w : phase (world_of (mount w)) <> Fresh.
Proof.
  unfold mount. rewrite bind_gets.
  apply (pres_after (fun x => phase x <> Fresh)).
  - simpl. discriminate.
  - intros _. pres_split; apply pres_modify; simpl; intros; auto.
Qed.

Lemma reachable_fresh w :
  reachable w -> phase w = Fresh -> w = init (href w) (vendor w).
Proof.
  intros Hr. induction Hr as [h v|w e Hr IH]; [reflexivity|].
  intros Hp. destruct (phase w) eqn:Hw.
  - destruct e; try (unfold step, program in *; rewrite Hw in *;
                     simpl in *; rewrite IH by reflexivity; reflexivity).
    exfalso. unfold step, program in Hp. rewrite Hw in Hp.
    apply (mount_phase w Hp).
  - exfalso. apply (phase_leaves_fresh e w w); [congruence|exact Hp].
  - exfalso. apply (phase_leaves_fresh e w w); [congruence|exact Hp].
Qed.

Lemma away_from_reported_handler s0 e w0 :
  (forall c ev ms, e <> Vendor c ev ms) ->
  pres (away_from_reported s0) (handler e w0).
Proof.
  intros He. destruct e; try (exfalso; eapply He; reflexivity).
  all: pres_split; apply pres_modify; unfold away_from_reported; simpl;
    intros; tauto.
Qed.

Lemma reported_by_accessor s ms a x :
  reported s ms -> a <> s ->
  (if x =? "joined-meeting" then STATE_JOINED
   else if x =? "left-meeting" then a
   else if x =? "error" then STATE_ERROR
   else a) = s ->
  x = ms.
Proof.
  intros [(-> & ->)|(-> & ->)] Ha;
    destruct (x =? "joined-meeting") eqn:E1;
    destruct (x =? "left-meeting") eqn:E2;
    destruct (x =? "error") eqn:E3; intros H;
    try contradiction; try discriminate;
    eqb_subst; congruence.
Qed.

Lemma reported_not_plain s ms s0 x :
  reported s ms -> s0 <> s -> away_from_reported s0 x -> appState x <> s.
Proof.
  intros Hr Hs [H|H] E; [congruence|].
  rewrite E in H.
  destruct Hr as [(-> & _)|(-> & _)]; simpl in H; intuition discriminate.
Qed.

Lemma handleNewMeetingState_keeps_vendor co v :
  pres (fun x => vendor x = v) (handleNewMeetingState co).
Proof.
  pres_split; try (apply pres_modify; simpl; auto).
Qed.

(** A vendor event in the mounted controller, as one world transformer. *)
Lemma vendor_step_world w c ev ms :
  phase w = Mounted -> subs w = subs_for (callObject w) ->
  step w (Vendor c ev ms) =
  let w1 := set_vendor (fun d => if Nat.eqb d c then ms else vendor w d) w in
  match callObject w with
  | Some d =>
      if Nat.eqb d c && existsb (fun e => e =? ev) events
      then world_of (handleNewMeetingState (Some d) w1)
      else w1
  | None => w1
  end.
Proof.
  intros Hp Hs. rewrite step_mounted by (auto; discriminate).
  rewrite vendor_handler by exact Hs. cbv zeta.
  set (w1 := set_vendor _ w).
  assert (K : world_of (commit w w1) = w1).
  { apply commit_noop; subst w1; simpl.
    - destruct (callObject w); simpl; auto using Nat.eqb_refl.
    - apply jsval_eqb_refl. }
  destruct (callObject w) as [d|] eqn:Hc; [|exact K].
  destruct (Nat.eqb d c && existsb (fun e => e =? ev) events); [|exact K].
  destruct (handleNewMeetingState_run d w1) as (R1 & R2 & _).
  apply commit_noop.
  - rewrite R1. subst w1. simpl. rewrite Hc. simpl. apply Nat.eqb_refl.
  - rewrite R2. subst w1. simpl. apply jsval_eqb_refl.
Qed.

Lemma unmount_keeps_appState s : pres (fun x => appState x = s) unmount.
Proof. pres_split; apply pres_modify; simpl; auto. Qed.

Lemma reported_step w e s ms :
  reachable w -> reported s ms ->
  appState w <> s -> appState (step w e) = s ->
  exists c, callObject (step w e) = Some c /\ vendor (step w e) c = ms.
Proof.
  intros Hr Hrep Hn Hs.
  pose proof (subs_reachable w Hr) as Hinv.
  destruct (phase w) eqn:Hp.
  - (* the first commit *)
    assert (He : e = Mount).
    { destruct e; auto;
        rewrite step_not_mounted in Hs by (congruence || discriminate);
        contradiction. }
    subst e. rewrite (reachable_fresh w Hr Hp) in Hs, Hn |- *.
    revert Hs Hn. generalize (href w) (vendor w). clear - Hrep.
    intros h v Hs Hn. revert Hs.
    unfold step, program, init; simpl. mrun.
    destruct (truthy (roomUrlFromPageUrl h)) eqn:Et; mrun.
    + destruct (roomUrlFromPageUrl h) as [| |u] eqn:Eu; try discriminate.
      mrun. repeat (case_head; mrun); intros Hs;
        destruct Hrep as [(-> & ->)|(-> & ->)]; try discriminate;
        try (exfalso; apply Hn; reflexivity);
        exists 0; eqb_subst; auto.
    + repeat (case_head; mrun); intros Hs; exfalso; apply Hn;
        simpl in *; congruence.
  - assert (He : e = Mount \/ e = Unmount \/
                 (exists c ev m, e = Vendor c ev m) \/
                 (e <> Mount /\ e <> Unmount /\
                  forall c ev m, e <> Vendor c ev m)).
    { destruct e; auto; try (right; right; right; repeat split;
                             discriminate).
      right; right; left; eauto. }
    destruct He as [-> | [-> | [(c & ev & m & ->) | (Hm & Hu & Hv)]]].
    + exfalso. apply Hn. rewrite <- Hs.
      unfold step, program. rewrite Hp. reflexivity.
    + exfalso. apply Hn. rewrite <- Hs. symmetry.
      unfold step, program. rewrite Hp.
      apply (unmount_keeps_appState (appState w) w eq_refl).
    + revert Hs. rewrite vendor_step_world by auto. cbv zeta.
      set (w1 := set_vendor _ w).
      destruct (callObject w) as [d|] eqn:Hc;
        [|intros Hs; exfalso; apply Hn; rewrite <- Hs; reflexivity].
      destruct (Nat.eqb d c) eqn:Ed; cbn [andb];
        [|intros Hs; exfalso; apply Hn; rewrite <- Hs; reflexivity].
      destruct (existsb (fun e => e =? ev) events);
        [|intros Hs; exfalso; apply Hn; rewrite <- Hs; reflexivity].
      apply Nat.eqb_eq in Ed. subst d.
      destruct (handleNewMeetingState_run c w1) as (R1 & _ & R3 & _).
      pose proof (handleNewMeetingState_keeps_vendor (Some c) (vendor w1)
                    w1 eq_refl) as Rv.
      intros Hs. rewrite R3 in Hs.
      apply (reported_by_accessor s ms) in Hs; auto.
      exists c. split.
      * rewrite R1. subst w1. simpl. exact Hc.
      * rewrite Rv. exact Hs.
    + revert Hs. rewrite step_mounted by auto.
      set (W := world_of (handler e w w)).
      pose proof (away_from_reported_handler (appState w) e w Hv w
                    (or_introl eq_refl)) as HW. fold W in HW.
      pose proof (reported_not_plain s ms _ W Hrep Hn HW) as HWn.
      destruct (commit_keeps_state w (roomUrl W) (callObject W)
                  (apiError W) (phase W) (nextCall W) (vendor W) W)
        as (_ & K2 & _ & _ & _ & K6); [repeat split; auto|].
      rewrite commit_appState, K2, K6.
      destruct (ref_eqb (callObject w) (callObject W));
        [intros Hs; contradiction|].
      destruct (callObject W) as [c|]; [|intros Hs; contradiction].
      intros Hs. apply (reported_by_accessor s ms) in Hs; auto.
      exists c. auto.
  - assert (E : step w e = w)
      by (unfold step, program; rewrite Hp; destruct e; reflexivity).
    rewrite E in Hs. contradiction.
Qed.

(** X13. The joined and error states are entered on the vendor's word
    alone.  Whenever a step moves the application state to joined, the
    call object that is current after the step reports joined-meeting at
    that moment; whenever a step moves it to error, that call object
    reports error.  No click and no settled promise enters either state
    by itself. *)
Theorem joined_and_error_follow_report h v es e :
  let w := run (init h v) es in
  let w' := step w e in
  (appState w <> STATE_JOINED -> appState w' = STATE_JOINED ->
   exists c, callObject w' = Some c /\ vendor w' c = "joined-meeting") /\
  (appState w <> STATE_ERROR -> appState w' = STATE_ERROR ->
   exists c, callObject w' = Some c /\ vendor w' c = "error").
Proof.
  cbv zeta.
  assert (Hr : reachable (run (init h v) es))
    by (apply reachable_run, reach_init).
  split; intros Hn Hs.
  - apply (reported_step _ e STATE_JOINED); auto. left; auto.
  - apply (reported_step _ e STATE_ERROR); auto. right; auto.
Qed.

(** *** Call-object handles *)



















(** *** The rendered screen *)

Lemma state_has_call_startHairCheck url :
  pres state_has_call (startHairCheck url).
Proof.
  intros x _ Hc. destruct (startHairCheck_run url x) as (_ & _ & A & _).
  cbv zeta in A. congruence.
Qed.

Lemma state_has_call_destroy_then : pres state_has_call destroy_then.
Proof. intros x _ _. left. destruct x; reflexivity. Qed.

Lemma state_has_call_promises e w0 :
  (forall b, e <> Click b) -> (forall c ev ms, e <> Vendor c ev ms) ->
  pres state_has_call (handler e w0).
Proof.
  intros Hb Hv.
  pose proof state_has_call_startHairCheck.
  pose proof state_has_call_destroy_then.
  destruct e; try (exfalso; eapply Hb; reflexivity);
    try (exfalso; eapply Hv; reflexivity).
  all: pres_walk; apply pres_modify; unfold state_has_call; simpl;
    intros; tauto.
Qed.

Lemma state_has_call_click b w :
  state_has_call w -> state_has_call (world_of (handler (Click b) w w)).
Proof.
  intros H. unfold handler.
  destruct (view_eqb (renderApp w) (screen_of b)); [|exact H]. cbn [when].
  assert (Hl : state_has_call
                 (world_of (startLeavingCall (callObject w) (appState w) w))).
  { unfold startLeavingCall.
    destruct (callObject w) as [c|] eqn:Hc; cbn [truthy_ref negb];
      [|exact H].
    destruct (appState w =? STATE_ERROR);
      intros Hn; exfalso; revert Hn; destruct w; cbn in *; congruence. }
  destruct b; cbn [onClick]; auto.
  - assert (K : pres state_has_call startDemo).
    { pres_split; apply pres_modify; unfold state_has_call; simpl;
        intros; tauto. }
    apply K, H.
  - assert (K : forall co url, pres state_has_call (joinCall co url)).
    { pres_split; apply pres_modify; unfold state_has_call; simpl;
        intros; tauto. }
    apply K, H.
Qed.

Lemma state_has_call_handler w e :
  (forall c ev ms, e <> Vendor c ev ms) ->
  state_has_call w -> state_has_call (world_of (handler e w w)).
Proof.
  intros He H.
  assert (Hc : (exists b, e = Click b) \/ (forall b, e <> Click b))
    by (destruct e; try (right; discriminate); left; eauto).
  destruct Hc as [(b & ->)|Hb].
  - apply state_has_call_click, H.
  - apply state_has_call_promises; auto.
Qed.

Lemma reachable_state_has_call w : reachable w -> state_has_call w.
Proof.
  intros Hr. induction Hr as [h v|w e Hr IH]; [left; reflexivity|].
  pose proof (subs_reachable w Hr) as Hinv.
  destruct (phase w) eqn:Hp.
  - destruct e;
      try (rewrite step_not_mounted by (congruence || discriminate);
           exact IH).
    rewrite (reachable_fresh w Hr Hp).
    generalize (href w) (vendor w). clear. intros h v.
    unfold state_has_call, step, program, init; simpl. mrun.
    destruct (truthy (roomUrlFromPageUrl h)) eqn:Et; mrun.
    + destruct (roomUrlFromPageUrl h) as [| |u] eqn:Eu; try discriminate.
      mrun. repeat (case_head; mrun); intros; auto; discriminate.
    + repeat (case_head; mrun); intros; auto.
  - assert (He : e = Mount \/ e = Unmount \/
                 (exists c ev m, e = Vendor c ev m) \/
                 (e <> Mount /\ e <> Unmount /\
                  forall c ev m, e <> Vendor c ev m)).
    { destruct e; auto; try (right; right; right; repeat split;
                             discriminate).
      right; right; left; eauto. }
    destruct He as [-> | [-> | [(c & ev & m & ->) | (Hm & Hu & Hv)]]].
    + unfold step, program. rewrite Hp. exact IH.
    + unfold step, program. rewrite Hp. intros Hc.
      rewrite (unmount_keeps_appState (appState w) w eq_refl).
      apply IH. rewrite <- Hc. symmetry.
      apply (unmount_keeps_call (callObject w) w eq_refl).
    + rewrite vendor_step_world by auto. cbv zeta.
      destruct (callObject w) as [d|] eqn:Hc.
      * destruct (Nat.eqb d c && existsb (fun e => e =? ev) events).
        -- intros Hn. exfalso.
           destruct (handleNewMeetingState_run d
                       (set_vendor (fun d0 => if Nat.eqb d0 c then m
                                              else vendor w d0) w))
             as (R1 & _).
           cbv zeta in R1. rewrite R1 in Hn. simpl in Hn. congruence.
        -- intros Hn. simpl in Hn. congruence.
      * intros _. simpl. apply IH, Hc.
    + rewrite step_mounted by auto.
      pose proof (state_has_call_handler w e Hv IH) as HW.
      set (W := world_of (handler e w w)) in *.
      destruct (commit_keeps_state w (roomUrl W) (callObject W)
                  (apiError W) (phase W) (nextCall W) (vendor W) W)
        as (_ & K2 & _); [repeat split; auto|].
      intros Hc. rewrite K2 in Hc.
      rewrite commit_appState_none by exact Hc. apply HW, Hc.
  - assert (E : step w e = w)
      by (unfold step, program; rewrite Hp; destruct e; reflexivity).
    rewrite E. exact IH.
Qed.

(** X15. The null check of the call object in [renderApp] never decides:
    in every reachable state the application state is hair-check, joined,
    leaving or error only while a call object exists.  So, without the
    error flag, the hair-check state always renders the hair-check screen,
    the joined and error states always render the call screen, and every
    other state renders the home screen. *)
Theorem screen_matches_state h v es :
  let w := run (init h v) es in
  (callObject w = None ->
   appState w = STATE_IDLE \/ appState w = STATE_CREATING) /\
  (apiError w = false ->
   renderApp w =
     if appState w =? STATE_HAIRCHECK then HairCheckView
     else if (appState w =? STATE_JOINED) || (appState w =? STATE_ERROR)
          then CallView
          else HomeView).
Proof.
  intros w.
  assert (Hr : reachable w) by (apply reachable_run, reach_init).
  pose proof (reachable_state_has_call w Hr) as H.
  pose proof (reachable_app_states w Hr) as Hj.
  split; [exact H|].
  intros Ha. unfold renderApp, showHairCheck, showCall. rewrite Ha.
  unfold state_has_call in H.
  destruct (callObject w) as [c|].
  - simpl in Hj. destruct Hj as [E|[E|[E|[E|[E|[E|[]]]]]]]; rewrite <- E;
      reflexivity.
  - destruct H as [-> | ->]; reflexivity.
Qed.


End RootScreen.

(** ** The properties on concrete executions *)

Module Demo.

Import Scenario.

Local Abbreviation exec :=
  (run Utils.roomUrlFromPageUrl Utils.pageUrlFromRoomUrl).
Local Abbreviation next :=
  (step Utils.roomUrlFromPageUrl Utils.pageUrlFromRoomUrl).

(** C1, at the error state reached by a vendor error during a call: the
    leave action calls [destroy()] and not [leave()], and changes no state
    yet. *)
Lemma leave_action_witness :
  let w := exec (init home fresh) to_error in
  let w1 := world_of (startLeavingCall (callObject w) (appState w) w) in
  callObject w = Some 0 /\ appState w = STATE_ERROR /\
  log w1 = log w ++ [Sdk 0 Destroy] /\ appState w1 = STATE_ERROR.
Proof.
  cbv zeta.
  assert (Hc : callObject (exec (init home fresh) to_error) = Some 0)
    by (vm_compute; reflexivity).
  assert (He : appState (exec (init home fresh) to_error) = STATE_ERROR)
    by (vm_compute; reflexivity).
  destruct (leave_action Utils.roomUrlFromPageUrl Utils.pageUrlFromRoomUrl
              (exec (init home fresh) to_error) 0 Hc) as (A & _).
  destruct (A He) as (A1 & _ & A3 & _).
  repeat split; auto.
Defined.

(** C2, after a failed room request: the flag is up and later events keep
    it up. *)
Lemma createCall_failure_witness :
  let w := exec (init home fresh) to_api_error in
  apiError w = true /\
  apiError (exec w [Vendor 0 "joined-meeting" "joined-meeting";
                    Click LeaveButton; Unmount]) = true.
Proof.
  cbv zeta.
  assert (H : apiError (exec (init home fresh) to_api_error) = true)
    by (vm_compute; reflexivity).
  split; [exact H|].
  apply (createCall_failure_sets_flag Utils.roomUrlFromPageUrl
           Utils.pageUrlFromRoomUrl (exec (init home fresh) to_api_error)).
  exact H.
Defined.

(** C3, when the request made from the home screen fails: a call object is
    created all the same and the error view is what is rendered. *)
Lemma createCall_never_rejects_witness :
  let w := exec (init home fresh) [Mount; Click StartButton] in
  let w1 := next w (RoomSettled Rejected) in
  phase w = Mounted /\ In TCreateRoom (pending w) /\
  callObject w1 = Some 0 /\ roomUrl w1 = JUndefined /\ apiError w1 = true.
Proof.
  cbv zeta.
  assert (Hp : phase (exec (init home fresh) [Mount; Click StartButton])
               = Mounted) by (vm_compute; reflexivity).
  assert (Hin : In TCreateRoom
                   (pending (exec (init home fresh)
                                  [Mount; Click StartButton])))
    by (vm_compute; auto).
  destruct (createCall_never_rejects Utils.roomUrlFromPageUrl
              Utils.pageUrlFromRoomUrl) as (_ & _ & _ & _ & A).
  destruct (A _ Hp Hin) as (_ & A2 & A3 & A4 & _).
  repeat split; auto.
Defined.

(** C4, counterexample: in a joined call, a camera-error event arrives
    while [meetingState()] still reports joined-meeting; the application
    state stays joined. *)
Lemma camera_error_keeps_joined :
  let w := exec (init home fresh) to_joined in
  let w' := next w (Vendor 0 "camera-error" "joined-meeting") in
  phase w = Mounted /\ callObject w = Some 0 /\
  In (0, "camera-error") (subs w) /\
  appState w' = STATE_JOINED /\ appState w' <> STATE_ERROR.
Proof.
  vm_compute. repeat split; auto; try discriminate.
Qed.

(** C4, the amended statement at the same event with the accessor
    reporting error. *)
Lemma camera_error_follows_meeting_state_witness :
  let w := exec (init home fresh) to_joined in
  phase w = Mounted /\ callObject w = Some 0 /\
  appState (next w (Vendor 0 "camera-error" "error")) = STATE_ERROR.
Proof.
  cbv zeta.
  assert (Hp : phase (exec (init home fresh) to_joined) = Mounted)
    by (vm_compute; reflexivity).
  assert (Hc : callObject (exec (init home fresh) to_joined) = Some 0)
    by (vm_compute; reflexivity).
  destruct (camera_error_follows_meeting_state Utils.roomUrlFromPageUrl
              Utils.pageUrlFromRoomUrl home fresh to_joined 0 "error"
              Hp Hc) as (_ & A & _).
  repeat split; auto.
Defined.





(** C7, in the hair check: the four subscriptions of call object 0. *)
Lemma subscriptions_witness :
  let w := exec (init home fresh) to_hair_check in
  phase w = Mounted /\ callObject w = Some 0 /\
  subs w = [(0, "joined-meeting"); (0, "left-meeting"); (0, "error");
            (0, "camera-error")].
Proof.
  cbv zeta.
  assert (Hp : phase (exec (init home fresh) to_hair_check) = Mounted)
    by (vm_compute; reflexivity).
  assert (Hc : callObject (exec (init home fresh) to_hair_check) = Some 0)
    by (vm_compute; reflexivity).
  destruct (subscriptions_follow_call_object Utils.roomUrlFromPageUrl
              Utils.pageUrlFromRoomUrl home fresh to_hair_check) as (A & _).
  split; [exact Hp|]. split; [exact Hc|].
  rewrite (A Hp), Hc. reflexivity.
Defined.

(** C9, when the created room becomes the room URL: one history write, to
    the page URL of the room. *)
Lemma page_address_witness :
  let w := exec (init home fresh) [Mount; Click StartButton] in
  let w' := next w room_created in
  phase w = Mounted /\
  history w' = history w ++ [ReplaceState deep_link] /\ href w' = deep_link.
Proof.
  cbv zeta.
  assert (Hp : phase (exec (init home fresh) [Mount; Click StartButton])
               = Mounted) by (vm_compute; reflexivity).
  destruct (page_address_follows_room_url Utils.roomUrlFromPageUrl
              Utils.pageUrlFromRoomUrl
              (exec (init home fresh) [Mount; Click StartButton]))
    as (_ & A & _).
  specialize (A room_created Hp). split; [exact Hp|].
  revert A. vm_compute. auto.
Defined.

(** C10, on the first render, where there is no call object yet. *)
Lemma join_and_leave_guarded_witness :
  joinCall None (JStr room) (init home fresh) = Ok tt (init home fresh) /\
  startLeavingCall None STATE_IDLE (init home fresh)
  = Ok tt (init home fresh).
Proof.
  destruct (join_and_leave_guarded (init home fresh)) as (A & B & _).
  split; [apply A; left; reflexivity | apply B].
Defined.

End Demo.

(** ** The further properties on concrete executions *)

Module DemoMore.

Import Scenario.

Local Abbreviation exec :=
  (run Utils.roomUrlFromPageUrl Utils.pageUrlFromRoomUrl).
Local Abbreviation next :=
  (step Utils.roomUrlFromPageUrl Utils.pageUrlFromRoomUrl).

(** X2, after a failed room request: the error view stays, whatever the
    vendor reports, and the leave button does nothing. *)
Lemma api_error_blocks_ui_witness :
  let w := exec (init home fresh) to_api_error in
  let w' := exec w [Vendor 0 "joined-meeting" "joined-meeting"] in
  apiError w = true /\
  renderApp w' = ApiErrorView /\ next w' (Click LeaveButton) = w'.
Proof.
  cbv zeta.
  assert (H : apiError (exec (init home fresh) to_api_error) = true)
    by (vm_compute; reflexivity).
  split; [exact H|].
  exact (api_error_blocks_ui Utils.roomUrlFromPageUrl
           Utils.pageUrlFromRoomUrl _
           [Vendor 0 "joined-meeting" "joined-meeting"] LeaveButton H).
Defined.

(** X4, in the hair check: [preAuth()] rejects and no call is made. *)
Lemma rejected_sdk_promise_witness :
  let w := exec (init home fresh) to_hair_check in
  phase w = Mounted /\
  log (next w (PreAuthSettled 0 false)) = log w /\
  appState (next w (DestroySettled 0 false)) = appState w.
Proof.
  cbv zeta.
  assert (Hp : phase (exec (init home fresh) to_hair_check) = Mounted)
    by (vm_compute; reflexivity).
  destruct (rejected_sdk_promise_changes_nothing Utils.roomUrlFromPageUrl
              Utils.pageUrlFromRoomUrl _ 0 Hp) as ((A & _) & (_ & B & _)).
  split; [exact Hp|]. split; [exact A | exact B].
Defined.

(** X5, with a second call object current: a late left-meeting of the
    first one is not handled. *)
Lemma stale_call_object_witness :
  let w := exec (init home fresh) restart_while_leaving in
  let w' := next w (Vendor 0 "left-meeting" "left-meeting") in
  callObject w <> Some 0 /\
  appState w' = appState w /\ log w' = log w.
Proof.
  cbv zeta.
  assert (Hn : callObject (exec (init home fresh) restart_while_leaving)
               <> Some 0) by (vm_compute; discriminate).
  destruct (stale_call_object_ignored Utils.roomUrlFromPageUrl
              Utils.pageUrlFromRoomUrl home fresh restart_while_leaving
              0 "left-meeting" "left-meeting" Hn)
    as (A & _ & _ & _ & B & _).
  split; [exact Hn|]. split; [exact A | exact B].
Defined.

(** X6, a second click while the first request is pending. *)
Lemma start_click_witness :
  let w := exec (init home fresh) [Mount; Click StartButton] in
  let w' := next w (Click StartButton) in
  phase w = Mounted /\ apiError w = false /\ appState w = STATE_CREATING /\
  pending w' = pending w ++ [TCreateRoom] /\ renderApp w' = HomeView.
Proof.
  cbv zeta.
  assert (Hp : phase (exec (init home fresh) [Mount; Click StartButton])
               = Mounted) by (vm_compute; reflexivity).
  assert (Ha : apiError (exec (init home fresh) [Mount; Click StartButton])
               = false) by (vm_compute; reflexivity).
  assert (Hs : appState (exec (init home fresh) [Mount; Click StartButton])
               = STATE_CREATING) by (vm_compute; reflexivity).
  destruct (start_click_always_requests_room Utils.roomUrlFromPageUrl
              Utils.pageUrlFromRoomUrl _ Hp Ha (or_intror (or_introl Hs)))
    as (_ & _ & _ & A & _ & _ & B).
  split; [exact Hp|]. split; [exact Ha|]. split; [exact Hs|].
  split; [exact A | exact B].
Defined.

(** X8, after a vendor error in a joined call. *)
Lemma error_state_recovers_witness :
  let w := exec (init home fresh) to_error in
  let w2 := next (next w (Click LeaveButton)) (DestroySettled 0 true) in
  phase w = Mounted /\ apiError w = false /\
  appState w = STATE_ERROR /\ callObject w = Some 0 /\
  appState w2 = STATE_IDLE /\ renderApp w2 = HomeView.
Proof.
  cbv zeta.
  assert (Hp : phase (exec (init home fresh) to_error) = Mounted)
    by (vm_compute; reflexivity).
  assert (Ha : apiError (exec (init home fresh) to_error) = false)
    by (vm_compute; reflexivity).
  assert (Hs : appState (exec (init home fresh) to_error) = STATE_ERROR)
    by (vm_compute; reflexivity).
  assert (Hc : callObject (exec (init home fresh) to_error) = Some 0)
    by (vm_compute; reflexivity).
  destruct (error_state_recovers_by_leave Utils.roomUrlFromPageUrl
              Utils.pageUrlFromRoomUrl home fresh to_error 0 Hp Ha Hs Hc)
    as (_ & _ & _ & A & _ & _ & _ & B).
  split; [exact Hp|]. split; [exact Ha|]. split; [exact Hs|].
  split; [exact Hc|]. split; [exact A | exact B].
Defined.

(** X10, after a cancelled hair check was cleaned up. *)
Lemma room_url_only_with_call_object_witness :
  let w := exec (init home fresh) (to_left ++ [DestroySettled 0 true]) in
  callObject w = None /\ roomUrl w = JNull.
Proof.
  cbv zeta.
  assert (Hc : callObject (exec (init home fresh)
                                (to_left ++ [DestroySettled 0 true]))
               = None) by (vm_compute; reflexivity).
  split; [exact Hc|].
  exact (room_url_only_with_call_object Utils.roomUrlFromPageUrl
           Utils.pageUrlFromRoomUrl home fresh
           (to_left ++ [DestroySettled 0 true]) Hc).
Defined.

(** X11, the join of the joined call. *)
Lemma join_always_has_url_witness :
  In (Sdk 0 (Join (JStr room))) (log (exec (init home fresh) to_joined)) /\
  truthy (JStr room) = true.
Proof.
  assert (Hin : In (Sdk 0 (Join (JStr room)))
                   (log (exec (init home fresh) to_joined)))
    by (vm_compute; tauto).
  split; [exact Hin|].
  exact (join_always_has_url Utils.roomUrlFromPageUrl
           Utils.pageUrlFromRoomUrl home fresh to_joined 0 (JStr room) Hin).
Defined.

End DemoMore.
